(** * Metrics string indexer: key parsing, key collections and result
      accumulators (sentry/sentry_metrics/indexer/base.py)

    A shallow embedding of the containers of the string indexer and the
    properties its design document states about them.

    Conventions of the embedding.
    - A Python [int] is a [Z]; [Optional[int]] is [option Z].
    - A Python [str] is a [string] whose characters are code points below
      256.  The interpreter's limit on the number of digits of an integer
      conversion is not part of the model.
    - A [dict] is a [gmap], a [set] a [gset]; a [defaultdict] is a [gmap]
      together with the value its factory produces, and reading a missing
      key stores that value ([getitem_default]).  Loops over a dict or a set
      run over [map_to_list] and [elements]; the properties below are
      stated through lookups and membership, so they do not depend on the
      order of iteration. Where the order of a dict shows in what a method
      returns ([get_mapped_strings_to_ints]), the order is an argument of
      the method.
    - Methods that mutate their receiver return the new receiver.
    - A raised exception is the [Raise] case of [result]. *)

From Stdlib Require Import ZArith Ascii String DecimalString DecimalZ DecimalPos.
From stdpp Require Import gmap strings list fin_maps fin_sets.

Local Open Scope Z_scope.

(** ** Exceptions *)

Inductive exn : Type :=
  | ValueError
  | KeyError.

Inductive result (A : Type) : Type :=
  | Return (a : A)
  | Raise (e : exn).

Arguments Return {A} a.
Arguments Raise {A} e.

#[global] Instance result_ret : MRet result := fun A a => Return a.

#[global] Instance result_bind : MBind result := fun A B k r =>
  match r with
  | Return a => k a
  | Raise e => Raise e
  end.

(** ** The builtins the module relies on *)

Module Py.

(** [str.partition], restricted to a one-character separator: the text
    before the first separator and the text after it. *)
Fixpoint partition_at (sep : ascii) (s : string) : option (string * string) :=
  match s with
  | EmptyString => None
  | String c r =>
      if Ascii.eqb c sep then Some (EmptyString, r)
      else match partition_at sep r with
           | Some (a, b) => Some (String c a, b)
           | None => None
           end
  end.

(** [s.split(sep, maxsplit)] for a one-character [sep]: at most
    [maxsplit] cuts, from the left. *)
Fixpoint split (sep : ascii) (maxsplit : nat) (s : string) : list string :=
  match maxsplit with
  | O => [s]
  | S n =>
      match partition_at sep s with
      | None => [s]
      | Some (a, b) => a :: split sep n b
      end
  end.

(** [a, b = xs] and [a, b, c = xs]: a length mismatch is a ValueError. *)
Definition unpack2 {A : Type} (xs : list A) : result (A * A) :=
  match xs with
  | [a; b] => Return (a, b)
  | _ => Raise ValueError
  end.

Definition unpack3 {A : Type} (xs : list A) : result (A * A * A) :=
  match xs with
  | [a; b; c] => Return (a, b, c)
  | _ => Raise ValueError
  end.

Fixpoint all_chars (P : ascii -> bool) (s : string) : bool :=
  match s with
  | EmptyString => true
  | String c r => P c && all_chars P r
  end.

(** Whitespace as [int()] sees it on code points below 256. *)
Definition is_space (c : ascii) : bool :=
  let n := nat_of_ascii c in
  ((9 <=? n)%nat && (n <=? 13)%nat) || (n =? 32)%nat
  || (n =? 133)%nat || (n =? 160)%nat.

Definition is_digit (c : ascii) : bool :=
  let n := nat_of_ascii c in (48 <=? n)%nat && (n <=? 57)%nat.

Definition is_underscore (c : ascii) : bool := Ascii.eqb c "_"%char.

Fixpoint lstrip (s : string) : string :=
  match s with
  | EmptyString => EmptyString
  | String c r => if is_space c then lstrip r else s
  end.

Fixpoint rstrip (s : string) : string :=
  match s with
  | EmptyString => EmptyString
  | String c r =>
      match rstrip r with
      | EmptyString => if is_space c then EmptyString else String c EmptyString
      | r' => String c r'
      end
  end.

Definition strip (s : string) : string := rstrip (lstrip s).

(** The digit part of an integer literal: decimal digits, single
    underscores allowed between two digits only. [prev_us] tells that the
    previous position does not allow an underscore or the end. *)
Fixpoint digits_grouped (prev_us : bool) (s : string) : bool :=
  match s with
  | EmptyString => negb prev_us
  | String c r =>
      if is_underscore c then negb prev_us && digits_grouped true r
      else is_digit c && digits_grouped false r
  end.

Fixpoint drop_underscores (s : string) : string :=
  match s with
  | EmptyString => EmptyString
  | String c r =>
      if is_underscore c then drop_underscores r
      else String c (drop_underscores r)
  end.

Definition parse_digits (s : string) : option Decimal.uint :=
  if digits_grouped true s then NilEmpty.uint_of_string (drop_underscores s)
  else None.

(** [int(s)] in base ten. *)
Definition int (s : string) : result Z :=
  let body := strip s in
  let signed :=
    match body with
    | String "-" r => option_map Decimal.Neg (parse_digits r)
    | String "+" r => option_map Decimal.Pos (parse_digits r)
    | _ => option_map Decimal.Pos (parse_digits body)
    end in
  match signed with
  | Some d => Return (Z.of_int d)
  | None => Raise ValueError
  end.

(** [str(n)], which is also what an f-string writes for an integer. *)
Definition str (n : Z) : string := NilEmpty.string_of_int (Z.to_int n).

End Py.

(** [len] of a dict, a set or a list. *)
Abbreviation len := size (only parsing).

(** ** Dictionaries *)

(** [d[k]] on a [defaultdict] whose factory produces [factory]: the value
    read and the dictionary afterwards, where a missing key has been
    stored. *)
Definition getitem_default `{Countable K} {V : Type}
    (factory : V) (k : K) (d : gmap K V) : V * gmap K V :=
  match d !! k with
  | Some v => (v, d)
  | None => (factory, <[k := factory]> d)
  end.

(** [d.update(other)]: the entries of [other] replace those of [d]. *)
Definition dict_update `{Countable K} {V : Type} (d other : gmap K V) : gmap K V :=
  other ∪ d.

(** [d.get(k)] on a dictionary of optional values: a missing key and a
    stored [None] both read as [None]. *)
Definition dict_get `{Countable K} {V : Type} (d : gmap K (option V)) (k : K) : option V :=
  match d !! k with
  | Some v => v
  | None => None
  end.

(** [{k: v for k, v in items}]: a later item replaces an earlier one with
    the same key. *)
Definition dict_of_items `{Countable K} {V : Type} (items : list (K * V)) : gmap K V :=
  foldl (fun acc kv => <[kv.1 := kv.2]> acc) ∅ items.

(** The value stored under [org] and then [s] in a two-level dictionary,
    read without storing anything. *)
Definition entry {V : Type} (d : gmap Z (gmap string V)) (org : Z) (s : string)
    : option V :=
  d !! org ≫= (fun strings => strings !! s).

(** Truth value of an [Optional[int]]: [None] and [0] are false. *)
Definition truthy (v : option Z) : bool :=
  match v with
  | Some n => negb (n =? 0)
  | None => false
  end.

(** A loop whose body may raise: the first exception ends it. *)
Definition for_each {A S : Type} (body : S -> A -> result S) (start : S)
    (items : list A) : result S :=
  foldl (fun acc item => st ← acc; body st item) (Return start) items.

(** [itertools.groupby(items, key)]: the runs of consecutive items with
    the same key, each with its key. *)
Fixpoint groupby {A K : Type} `{EqDecision K} (key : A -> K) (items : list A)
    : list (K * list A) :=
  match items with
  | [] => []
  | item :: rest =>
      match groupby key rest with
      | (k, group) :: groups =>
          if decide (key item = k) then (k, item :: group) :: groups
          else (key item, [item]) :: (k, group) :: groups
      | [] => [(key item, [item])]
      end
  end.

(** ** Value records *)

Inductive FetchType : Type :=
  | CACHE_HIT
  | HARDCODED
  | DB_READ
  | FIRST_SEEN
  | RATE_LIMITED.

Module FetchTypeExt.
Record t : Type := mk { is_global : bool }.
End FetchTypeExt.

Module Metadata.
Record t : Type := mk {
  id : option Z;
  fetch_type : FetchType;
  fetch_type_ext : option FetchTypeExt.t
}.
End Metadata.

(** [f"{org_id}:{string}"] *)
Definition key_string (org : Z) (s : string) : string :=
  Py.str org +:+ (":" +:+ s).

(** [f"{use_case_id}:{string}"] *)
Definition use_case_key_string (use_case : string) (s : string) : string :=
  use_case +:+ (":" +:+ s).

Module KeyResult.
Record t : Type := mk {
  org_id : Z;
  string : String.string;
  id : option Z
}.

(** [KeyResult.from_string] *)
Definition from_string (key : String.string) (i : Z) : result t :=
  '(org, s) ← Py.unpack2 (Py.split ":" 1 key);
  o ← Py.int org;
  Return (mk o s (Some i)).
End KeyResult.

Module UseCaseKeyResult.
Record t : Type := mk {
  use_case_id : String.string;
  org_id : Z;
  string : String.string;
  id : option Z
}.

(** [UseCaseKeyResult.from_string]: three names are bound from a split
    that cuts once. *)
Definition from_string (key : String.string) (i : Z) : result t :=
  '(use_case, org, s) ← Py.unpack3 (Py.split ":" 1 key);
  o ← Py.int org;
  Return (mk use_case o s (Some i)).
End UseCaseKeyResult.

(** ** KeyCollection *)

(** [[(org_id, string) for string in strings]], for one item of the
    mapping. *)
Definition tuples_of (item : Z * gset string) : list (Z * string) :=
  (fun s => (item.1, s)) <$> elements item.2.

Module KeyCollection.
Record t : Type := mk {
  mapping : gmap Z (gset string);
  size : nat
}.

(** The keys iterated come from the mapping itself, so [mapping[org_id]]
    always finds its entry; it is read with the total lookup. *)
Definition _size (mapping : gmap Z (gset string)) : nat :=
  foldl (fun total_size org_id => (total_size + len (mapping !!! org_id))%nat)
        0%nat (map_to_list mapping).*1.

Definition init (mapping : gmap Z (gset string)) : t :=
  mk mapping (_size mapping).

Definition as_tuples (self : t) : list (Z * string) :=
  foldl (fun key_pairs org_id =>
           key_pairs ++ tuples_of (org_id, mapping self !!! org_id))
        [] (map_to_list (mapping self)).*1.

Definition as_strings (self : t) : list string :=
  foldl (fun keys org_id =>
           keys ++ (key_string org_id <$> elements (mapping self !!! org_id)))
        [] (map_to_list (mapping self)).*1.
End KeyCollection.

(** ** UseCaseKeyCollection *)

Module UseCaseKeyCollection.
(** What the constructor takes for one use case: a mapping from orgs to
    sets of strings, or a KeyCollection already built. *)
Inductive keys_arg : Type :=
  | Raw (mapping : gmap Z (gset string))
  | Built (keys : KeyCollection.t).

Record t : Type := mk {
  mapping : gmap string KeyCollection.t;
  size : nat
}.

Definition _size (mapping : gmap string KeyCollection.t) : nat :=
  sum_list (KeyCollection.size <$> (map_to_list mapping).*2).

Definition init (mapping : gmap string keys_arg) : t :=
  let mapping :=
    (fun keys =>
       match keys with
       | Built key_collection => key_collection
       | Raw m => KeyCollection.init m
       end) <$> mapping in
  mk mapping (_size mapping).

Definition as_tuples (self : t) : list (string * Z * string) :=
  item ← map_to_list (mapping self);
  (fun p => (item.1, p.1, p.2)) <$> KeyCollection.as_tuples item.2.

Definition as_strings (self : t) : list string :=
  item ← map_to_list (mapping self);
  use_case_key_string item.1 <$> KeyCollection.as_strings item.2.
End UseCaseKeyCollection.

(** ** KeyResults *)

Module KeyResults.
Record t : Type := mk {
  results : gmap Z (gmap string (option Z));
  meta : gmap Z (gmap string Metadata.t)
}.

Definition init : t := mk ∅ ∅.

(** [add_key_result]. The members of a plain [Enum] are all true, so
    [if fetch_type:] fails for [None] only. *)
Definition add_key_result (self : t) (key_result : KeyResult.t)
    (fetch_type : option FetchType)
    (fetch_type_ext : option FetchTypeExt.t) : t :=
  let org := KeyResult.org_id key_result in
  let '(strings, results1) := getitem_default ∅ org (results self) in
  let results2 :=
    <[org := dict_update strings
               {[KeyResult.string key_result := KeyResult.id key_result]}]>
      results1 in
  match fetch_type with
  | Some ft =>
      let '(org_meta, meta1) := getitem_default ∅ org (meta self) in
      mk results2
         (<[org := <[KeyResult.string key_result :=
                       Metadata.mk (KeyResult.id key_result) ft fetch_type_ext]>
                     org_meta]> meta1)
  | None => mk results2 (meta self)
  end.

Definition add_key_results (self : t) (key_results : list KeyResult.t)
    (fetch_type : option FetchType)
    (fetch_type_ext : option FetchTypeExt.t) : t :=
  foldl (fun self key_result =>
           add_key_result self key_result fetch_type fetch_type_ext)
        self key_results.

Definition get_mapped_results (self : t) : gmap Z (gmap string (option Z)) :=
  filter (fun kv => (0 < len kv.2)%nat) (results self).

(** One turn of the inner loop of [get_unmapped_keys]: the receiver's
    results and the strings found unmapped so far. *)
Definition unmapped_step (org_id : Z)
    (st : gmap Z (gmap string (option Z)) * gmap Z (gset string))
    (string : String.string)
    : gmap Z (gmap String.string (option Z)) * gmap Z (gset String.string) :=
  let '(strings, results1) := getitem_default ∅ org_id st.1 in
  if negb (truthy (dict_get strings string)) then
    let '(unmapped, unmapped1) := getitem_default ∅ org_id st.2 in
    (results1, <[org_id := unmapped ∪ {[string]}]> unmapped1)
  else (results1, st.2).

(** [get_unmapped_keys]: the collection returned and the receiver
    afterwards. *)
Definition get_unmapped_keys (self : t) (keys : KeyCollection.t)
    : KeyCollection.t * t :=
  let st :=
    foldl (fun st item => foldl (unmapped_step item.1) st (elements item.2))
          (results self, ∅) (map_to_list (KeyCollection.mapping keys)) in
  (KeyCollection.init st.2, mk st.1 (meta self)).

Definition get_mapped_key_strings_to_ints (self : t) : gmap string Z :=
  foldl (fun cache_key_results item =>
           foldl (fun cache_key_results entry =>
                    let key := key_string item.1 entry.1 in
                    match entry.2 with
                    | Some i => <[key := i]> cache_key_results
                    | None => cache_key_results
                    end)
                 cache_key_results (map_to_list item.2))
        ∅ (map_to_list (results self)).

Definition get_fetch_metadata (self : t) : gmap Z (gmap string Metadata.t) :=
  meta self.

(** The loop [for org_id, d in items: acc[org_id].update(d)] on a
    [defaultdict(dict)]. *)
Definition update_all {V : Type} (acc : gmap Z (gmap string V))
    (items : list (Z * gmap string V)) : gmap Z (gmap string V) :=
  foldl (fun acc item =>
           let '(d, acc1) := getitem_default ∅ item.1 acc in
           <[item.1 := dict_update d item.2]> acc1)
        acc items.

Definition merge (self other : t) : t :=
  let new_results :=
    update_all ∅ (map_to_list (results other) ++ map_to_list (results self)) in
  let new_meta := update_all ∅ (map_to_list (meta self)) in
  let new_meta := update_all new_meta (map_to_list (meta other)) in
  mk new_results new_meta.

(** [__getitem__]: the sub-mapping read and the receiver afterwards. *)
Definition getitem (self : t) (org_id : Z) : gmap string (option Z) * t :=
  let '(strings, results1) := getitem_default ∅ org_id (results self) in
  (strings, mk results1 (meta self)).
End KeyResults.

#[global] Instance KeyResults_inhabited : Inhabited KeyResults.t :=
  populate KeyResults.init.

(** ** UseCaseKeyResults *)

Module UseCaseKeyResults.
Record t : Type := mk {
  results : gmap string KeyResults.t
}.

Definition init : t := mk ∅.

(** [self.results[use_case_id]]. [__init__] makes [results] a defaultdict
    that builds an empty KeyResults for a missing use case; [merge] gives
    the object it returns a plain dict, where a missing use case is a
    KeyError. [auto] tells which of the two the receiver holds: [true] for
    an object made by the constructor, [false] for one returned by
    [merge]. *)
Definition results_getitem (auto : bool) (results : gmap string KeyResults.t)
    (use_case_id : string)
    : result (KeyResults.t * gmap string KeyResults.t) :=
  match results !! use_case_id with
  | Some key_results => Return (key_results, results)
  | None =>
      if auto
      then Return (KeyResults.init, <[use_case_id := KeyResults.init]> results)
      else Raise KeyError
  end.

Definition add_use_case_key_result (auto : bool) (self : t)
    (use_case_key_result : UseCaseKeyResult.t)
    (fetch_type : option FetchType)
    (fetch_type_ext : option FetchTypeExt.t) : result t :=
  let use_case := UseCaseKeyResult.use_case_id use_case_key_result in
  '(key_results, results1) ← results_getitem auto (results self) use_case;
  Return (mk (<[use_case :=
                  KeyResults.add_key_result key_results
                    (KeyResult.mk (UseCaseKeyResult.org_id use_case_key_result)
                                  (UseCaseKeyResult.string use_case_key_result)
                                  (UseCaseKeyResult.id use_case_key_result))
                    fetch_type fetch_type_ext]> results1)).

(** [get_mapped_strings_to_ints]. The comprehension visits the use cases
    in the order in which [results] received them, and a later item
    replaces an earlier one that has the same key. A [gmap] keeps no such
    order, so it is an argument: [order] lists the use cases of [results]
    as the dict iterates them. The strings of one use case never share a
    key, so the order among them does not show in the mapping returned. *)
Definition get_mapped_strings_to_ints (order : list string) (self : t)
    : gmap string Z :=
  dict_of_items
    (use_case_id ← order;
     match results self !! use_case_id with
     | Some key_results =>
         (fun entry => (use_case_key_string use_case_id entry.1, entry.2))
           <$> map_to_list
                 (KeyResults.get_mapped_key_strings_to_ints key_results)
     | None => []
     end).

(** The inner function of [merge]. The use case asked for is always a
    key of one of the two sides, so the subscripts find their entry. *)
Definition merge_use_case (self other : t) (use_case_id : string) : KeyResults.t :=
  if bool_decide (use_case_id ∈ dom (results self))
     && bool_decide (use_case_id ∈ dom (results other))
  then KeyResults.merge (results self !!! use_case_id)
                        (results other !!! use_case_id)
  else if bool_decide (use_case_id ∈ dom (results self))
  then results self !!! use_case_id
  else results other !!! use_case_id.

Definition merge (self other : t) : t :=
  mk (set_to_map (fun use_case_id =>
                    (use_case_id, merge_use_case self other use_case_id))
                 (dom (results self) ∪ dom (results other))).

Definition to_key_result (use_case_key_result : UseCaseKeyResult.t)
    : KeyResult.t :=
  KeyResult.mk (UseCaseKeyResult.org_id use_case_key_result)
               (UseCaseKeyResult.string use_case_key_result)
               (UseCaseKeyResult.id use_case_key_result).

Definition add_use_case_key_results (auto : bool) (self : t)
    (use_case_key_results : list UseCaseKeyResult.t)
    (fetch_type : option FetchType)
    (fetch_type_ext : option FetchTypeExt.t) : result t :=
  for_each
    (fun self group =>
       '(key_results, results1) ← results_getitem auto (results self) group.1;
       Return (mk (<[group.1 :=
                       KeyResults.add_key_results key_results
                         (to_key_result <$> group.2)
                         fetch_type fetch_type_ext]> results1)))
    self (groupby UseCaseKeyResult.use_case_id use_case_key_results).

(** A dict is true when it has a key. *)
Definition get_mapped_results (self : t)
    : gmap string (gmap Z (gmap string (option Z))) :=
  omap (fun key_results =>
          let mapped_result := KeyResults.get_mapped_results key_results in
          if decide (mapped_result = ∅) then None else Some mapped_result)
       (results self).

Definition get_fetch_metadata (self : t)
    : gmap string (gmap Z (gmap string Metadata.t)) :=
  omap (fun key_results =>
          let fetch_metadata := KeyResults.get_fetch_metadata key_results in
          if decide (fetch_metadata = ∅) then None else Some fetch_metadata)
       (results self).

(** One turn of the comprehension of [get_unmapped_use_case_keys]: the
    receiver's results and the collections kept so far. *)
Definition unmapped_use_case_step (auto : bool)
    (st : gmap string KeyResults.t * gmap string KeyCollection.t)
    (item : string * KeyCollection.t)
    : result (gmap string KeyResults.t * gmap string KeyCollection.t) :=
  '(key_results, results1) ← results_getitem auto st.1 item.1;
  let unmapped := KeyResults.get_unmapped_keys key_results item.2 in
  let results2 := <[item.1 := unmapped.2]> results1 in
  Return (results2,
          if bool_decide (0 < KeyCollection.size unmapped.1)%nat
          then <[item.1 := unmapped.1]> st.2
          else st.2).

(** [get_unmapped_use_case_keys]: the collection returned and the receiver
    afterwards. *)
Definition get_unmapped_use_case_keys (auto : bool) (self : t)
    (use_case_key_collection : UseCaseKeyCollection.t)
    : result (UseCaseKeyCollection.t * t) :=
  st ← for_each (unmapped_use_case_step auto) (results self, ∅)
         (map_to_list (UseCaseKeyCollection.mapping use_case_key_collection));
  Return (UseCaseKeyCollection.init (UseCaseKeyCollection.Built <$> st.2),
          mk st.1).
End UseCaseKeyResults.
(** ** Derived forms of the loops, and two descriptions read literally *)

(** [results[org_id].get(string)], read without storing anything. *)
Definition recorded_id (results : gmap Z (gmap string (option Z)))
    (org : Z) (s : string) : option Z :=
  dict_get (default ∅ (results !! org)) s.

(** The test of [get_unmapped_keys] on one key. *)
Definition unmapped (results : gmap Z (gmap string (option Z)))
    (org : Z) (s : string) : bool :=
  negb (truthy (recorded_id results org s)).

(** [d[k]] on a [defaultdict(dict)], evaluated for its effect only. *)
Definition vivify {V : Type} (k : Z) (d : gmap Z (gmap string V))
    : gmap Z (gmap string V) :=
  <[k := default ∅ (d !! k)]> d.

(** What one item of the collection does to the receiver's results in
    [get_unmapped_keys]: the org is read when its set has a string. *)
Definition read_org (r : gmap Z (gmap string (option Z)))
    (item : Z * gset string) : gmap Z (gmap string (option Z)) :=
  match elements item.2 with [] => r | _ => vivify item.1 r end.

(** [unmapped_org_strings[org_id].add(string)] when [test] holds of the
    key. *)
Definition add_unmapped (test : Z -> string -> bool) (org : Z)
    (acc : gmap Z (gset string)) (s : string) : gmap Z (gset string) :=
  if test org s then <[org := default ∅ (acc !! org) ∪ {[s]}]> acc else acc.

(** [s] is among the strings stored for [org]. *)
Definition holds (d : gmap Z (gset string)) (org : Z) (s : string) : Prop :=
  s ∈ default ∅ (d !! org).

(** The items [get_mapped_key_strings_to_ints] stores for one org: the
    strings with a non-null id, under their rendered key. *)
Definition export_items (item : Z * gmap string (option Z)) : list (string * Z) :=
  omap (fun entry => (fun i => (key_string item.1 entry.1, i)) <$> entry.2)
       (map_to_list item.2).

(** The items [get_mapped_strings_to_ints] stores for one use case. *)
Definition use_case_items (item : string * KeyResults.t) : list (string * Z) :=
  (fun entry => (use_case_key_string item.1 entry.1, entry.2))
    <$> map_to_list (KeyResults.get_mapped_key_strings_to_ints item.2).

(** The items [get_mapped_strings_to_ints] stores when it visits one use
    case. *)
Definition use_case_items_of (self : UseCaseKeyResults.t) (use_case : string)
    : list (string * Z) :=
  match UseCaseKeyResults.results self !! use_case with
  | Some key_results => use_case_items (use_case, key_results)
  | None => []
  end.

(** A use-case id without a colon. *)
Definition colon_free (use_case : string) : bool :=
  Py.all_chars (fun c => negb (Ascii.eqb c ":")) use_case.

(** The description of [get_mapped_strings_to_ints], read literally:
    every entry with a non-null id is in the mapping returned, under its
    key and with its id. *)
Definition exports_every_entry (order : list string)
    (self : UseCaseKeyResults.t) : Prop :=
  forall (use_case : string) (key_results : KeyResults.t)
         (o : Z) (s : string) (i : Z),
    UseCaseKeyResults.results self !! use_case = Some key_results ->
    entry (KeyResults.results key_results) o s = Some (Some i) ->
    UseCaseKeyResults.get_mapped_strings_to_ints order self
      !! use_case_key_string use_case (key_string o s) = Some i.

(** The first half of the description of [get_mapped_results], read
    literally: every org returned has a string with a non-null id. *)
Definition returns_only_resolved_orgs (self : KeyResults.t) : Prop :=
  forall (o : Z) (strings : gmap string (option Z)),
    KeyResults.get_mapped_results self !! o = Some strings ->
    exists (s : string) (i : Z), strings !! s = Some (Some i).

(** The effect of [get_unmapped_keys] on the receiver, read literally:
    every org of the collection that the receiver lacks is stored with an
    empty sub-mapping. *)
Definition vivifies_every_org (self : KeyResults.t) (keys : KeyCollection.t)
    : Prop :=
  forall o : Z,
    o ∈ dom (KeyCollection.mapping keys) ->
    KeyResults.results self !! o = None ->
    KeyResults.results (KeyResults.get_unmapped_keys self keys).2 !! o = Some ∅.

(** The last key result of a sequence that is about the key [(org, s)]. *)
Definition latest (org : Z) (s : string) (key_results : list KeyResult.t)
    : option KeyResult.t :=
  last (filter (fun key_result =>
                  KeyResult.org_id key_result = org
                  /\ KeyResult.string key_result = s) key_results).

(** ** The scenarios of the design document *)

Module Scenario.
Local Open Scope string_scope.

(** The collection [{1: {"a", "b"}, 2: {"e"}}]. *)
Definition keys : KeyCollection.t :=
  KeyCollection.init {[1 := {["a"; "b"]}; 2 := {["e"]}]}.

(** A stage that recorded [a -> 10] for org 1 as a cache hit. *)
Definition cache_stage : KeyResults.t :=
  KeyResults.add_key_result KeyResults.init
    (KeyResult.mk 1 "a" (Some 10)) (Some CACHE_HIT) None.

(** Two stages that resolved the same key differently. *)
Definition hardcoded_stage : KeyResults.t :=
  KeyResults.add_key_result KeyResults.init
    (KeyResult.mk 1 "a" (Some 10)) (Some HARDCODED) None.

Definition db_stage : KeyResults.t :=
  KeyResults.add_key_result KeyResults.init
    (KeyResult.mk 1 "a" (Some 20)) (Some DB_READ) None.

(** The use-case batch [{"perf": {1: {"x"}}, "spans": {1: {"y"}}}] resolved
    to the ids 5 and 6. *)
Definition batch : UseCaseKeyResults.t :=
  UseCaseKeyResults.mk
    {["perf" := KeyResults.add_key_result KeyResults.init
                  (KeyResult.mk 1 "x" (Some 5)) (Some FIRST_SEEN) None;
      "spans" := KeyResults.add_key_result KeyResults.init
                   (KeyResult.mk 1 "y" (Some 6)) (Some FIRST_SEEN) None]}.

(** One use case seen by two stages. *)
Definition perf_hardcoded : UseCaseKeyResults.t :=
  UseCaseKeyResults.mk {["perf" := hardcoded_stage]}.

Definition perf_db : UseCaseKeyResults.t :=
  UseCaseKeyResults.mk {["perf" := db_stage]}.

(** Two use cases, "a" recorded before "a:1", whose keys are written the
    same: "a" holds [2:x -> 5] for org 1, "a:1" holds [x -> 6] for
    org 2. *)
Definition colliding : UseCaseKeyResults.t :=
  UseCaseKeyResults.mk
    {["a" := KeyResults.add_key_result KeyResults.init
               (KeyResult.mk 1 "2:x" (Some 5)) (Some DB_READ) None;
      "a:1" := KeyResults.add_key_result KeyResults.init
                 (KeyResult.mk 2 "x" (Some 6)) (Some DB_READ) None]}.

(** The use-case collection [{"perf": {1: {"x"}}, "spans": {1: {"y"}}}],
    the second use case given as a collection already built. *)
Definition use_case_keys : UseCaseKeyCollection.t :=
  UseCaseKeyCollection.init
    {["perf" := UseCaseKeyCollection.Raw {[1 := {["x"]}]};
      "spans" := UseCaseKeyCollection.Built (KeyCollection.init {[1 := {["y"]}]})]}.

(** Results of two use cases, those of "perf" not next to each other. *)
Definition mixed_results : list UseCaseKeyResult.t :=
  [UseCaseKeyResult.mk "perf" 1 "x" (Some 5);
   UseCaseKeyResult.mk "spans" 1 "y" (Some 6);
   UseCaseKeyResult.mk "perf" 1 "z" None].

(** A stage that recorded the id [0]. *)
Definition zero_stage : KeyResults.t :=
  KeyResults.add_key_result KeyResults.init
    (KeyResult.mk 1 "a" (Some 0)) (Some DB_READ) None.
End Scenario.

(** * Properties *)

(** ** The builtins *)

Section builtins.
Local Open Scope string_scope.

Lemma split_length (sep : ascii) (n : nat) (s : string) :
  (length (Py.split sep n s) <= S n)%nat.
Proof.
  revert s. induction n as [|n IH]; intros s; simpl; [lia|].
  destruct (Py.partition_at sep s) as [[a b]|]; simpl; [|lia].
  specialize (IH b). lia.
Qed.

Lemma partition_at_app (sep : ascii) (a b : string) :
  Py.all_chars (fun c => negb (Ascii.eqb c sep)) a = true ->
  Py.partition_at sep (a +:+ String sep b) = Some (a, b).
Proof.
  induction a as [|c a IH]; simpl.
  - intros _. by rewrite Ascii.eqb_refl.
  - intros [Hc Ha]%andb_true_iff. apply negb_true_iff in Hc.
    rewrite Hc, (IH Ha). done.
Qed.

Lemma digit_facts (c : ascii) :
  Py.is_digit c = true ->
  Py.is_space c = false /\ Py.is_underscore c = false
  /\ Ascii.eqb c ":" = false /\ Ascii.eqb c "-" = false
  /\ Ascii.eqb c "+" = false.
Proof.
  destruct c as [[] [] [] [] [] [] [] []]; vm_compute; intros; try discriminate; done.
Qed.

Lemma all_chars_impl (P Q : ascii -> bool) (s : string) :
  (forall c, P c = true -> Q c = true) ->
  Py.all_chars P s = true -> Py.all_chars Q s = true.
Proof.
  intros HPQ. induction s as [|c s IH]; simpl; [done|].
  intros [Hc Hs]%andb_true_iff. rewrite (HPQ _ Hc). simpl. auto.
Qed.

Lemma string_of_uint_digits (d : Decimal.uint) :
  Py.all_chars Py.is_digit (NilEmpty.string_of_uint d) = true.
Proof. induction d; simpl; auto. Qed.

Lemma rstrip_no_space (s : string) :
  Py.all_chars (fun c => negb (Py.is_space c)) s = true -> Py.rstrip s = s.
Proof.
  induction s as [|c s IH]; simpl; [done|].
  intros [Hc Hs]%andb_true_iff. apply negb_true_iff in Hc.
  rewrite (IH Hs), Hc. by destruct s.
Qed.

Lemma strip_no_space (s : string) :
  Py.all_chars (fun c => negb (Py.is_space c)) s = true -> Py.strip s = s.
Proof.
  intros Hs. unfold Py.strip.
  assert (Py.lstrip s = s) as ->; [|by apply rstrip_no_space].
  destruct s as [|c s]; simpl in *; [done|].
  apply andb_true_iff in Hs as [Hc _]. apply negb_true_iff in Hc.
  by rewrite Hc.
Qed.

Lemma digits_grouped_digits (b : bool) (s : string) :
  Py.all_chars Py.is_digit s = true -> s <> "" ->
  Py.digits_grouped b s = true.
Proof.
  revert b. induction s as [|c s IH]; intros b Hs Hne; [done|].
  simpl in *. apply andb_true_iff in Hs as [Hc Hs].
  destruct (digit_facts c Hc) as (_ & -> & _). rewrite Hc. simpl.
  destruct s as [|c' s']; [done|]. by apply IH.
Qed.

Lemma drop_underscores_digits (s : string) :
  Py.all_chars Py.is_digit s = true -> Py.drop_underscores s = s.
Proof.
  induction s as [|c s IH]; simpl; [done|].
  intros [Hc Hs]%andb_true_iff.
  destruct (digit_facts c Hc) as (_ & -> & _). by rewrite (IH Hs).
Qed.

Lemma parse_digits_string_of_uint (d : Decimal.uint) :
  d <> Decimal.Nil ->
  Py.parse_digits (NilEmpty.string_of_uint d) = Some d.
Proof.
  intros Hd. unfold Py.parse_digits.
  rewrite digits_grouped_digits, drop_underscores_digits;
    auto using string_of_uint_digits, NilEmpty.usu.
  by destruct d.
Qed.

Lemma to_uint_head (p : positive) :
  exists c s, NilEmpty.string_of_uint (Pos.to_uint p) = String c s
              /\ Py.is_digit c = true.
Proof.
  pose proof (string_of_uint_digits (Pos.to_uint p)) as Hd.
  pose proof (DecimalPos.Unsigned.to_uint_nonnil p) as Hn.
  destruct (NilEmpty.string_of_uint (Pos.to_uint p)) as [|c s] eqn:E.
  - by destruct (Pos.to_uint p).
  - simpl in Hd. apply andb_true_iff in Hd as [Hc _]. eauto.
Qed.

(** [int(str(n)) == n] *)
Lemma int_str (n : Z) : Py.int (Py.str n) = Return n.
Proof.
  unfold Py.int, Py.str.
  assert (forall d, Py.all_chars (fun c => negb (Py.is_space c))
                      (NilEmpty.string_of_uint d) = true) as Hsp.
  { intros d. eapply all_chars_impl; [|apply string_of_uint_digits].
    intros c Hc. by destruct (digit_facts c Hc) as (-> & _). }
  destruct n as [|p|p]; [done| |].
  - simpl. rewrite strip_no_space by apply Hsp.
    destruct (to_uint_head p) as (c & s & E & Hc).
    pose proof (parse_digits_string_of_uint (Pos.to_uint p)
                  (DecimalPos.Unsigned.to_uint_nonnil p)) as Hp.
    rewrite E in Hp |- *.
    destruct (digit_facts c Hc) as (_ & _ & _ & Hm & Hpl).
    apply Ascii.eqb_neq in Hm, Hpl.
    assert (option_map Decimal.Pos (Py.parse_digits (String c s))
            = Some (Decimal.Pos (Pos.to_uint p))) as Hgoal by (by rewrite Hp).
    transitivity (match option_map Decimal.Pos (Py.parse_digits (String c s)) with
                  | Some d => Return (Z.of_int d) | None => Raise ValueError end).
    { destruct c as [[] [] [] [] [] [] [] []]; try done. }
    rewrite Hgoal. f_equal. apply (DecimalZ.of_to (Z.pos p)).
  - simpl. rewrite strip_no_space by (simpl; apply Hsp).
    rewrite parse_digits_string_of_uint
      by apply DecimalPos.Unsigned.to_uint_nonnil.
    simpl. f_equal. apply (DecimalZ.of_to (Z.neg p)).
Qed.

Lemma str_no_colon (n : Z) :
  Py.all_chars (fun c => negb (Ascii.eqb c ":")) (Py.str n) = true.
Proof.
  assert (forall d, Py.all_chars (fun c => negb (Ascii.eqb c ":"))
                      (NilEmpty.string_of_uint d) = true) as Hd.
  { intros d. eapply all_chars_impl; [|apply string_of_uint_digits].
    intros c Hc. by destruct (digit_facts c Hc) as (_ & _ & -> & _). }
  unfold Py.str. destruct (Z.to_int n); simpl; auto.
Qed.

Lemma split_key_string (org : Z) (s : string) :
  Py.split ":" 1 (key_string org s) = [Py.str org; s].
Proof.
  unfold key_string. change (":" +:+ s) with (String ":" s).
  cbn [Py.split].
  by rewrite (partition_at_app ":" (Py.str org) s (str_no_colon org)).
Qed.
End builtins.

(** ** Parsing composite keys *)

Section from_string.
Local Open Scope string_scope.

(** Whatever the key, [UseCaseKeyResult.from_string] raises: the split
    yields at most two parts and three are asked for. *)
Lemma use_case_from_string_raises (key : string) (i : Z) :
  UseCaseKeyResult.from_string key i = Raise ValueError.
Proof.
  unfold UseCaseKeyResult.from_string.
  pose proof (split_length ":" 1 key) as Hlen.
  destruct (Py.split ":" 1 key) as [|a [|b [|c l]]]; try done.
  simpl in Hlen. lia.
Qed.

(** C1: on the well-formed key "perf:1:x" the parser of use-case keys
    does not return [UseCaseKeyResult("perf", 1, "x", 5)]; it raises a
    ValueError. *)
Theorem use_case_from_string_well_formed_key :
  UseCaseKeyResult.from_string "perf:1:x" 5 = Raise ValueError.
Proof. reflexivity. Qed.

Lemma from_string_key_string (org : Z) (s : string) (i : Z) :
  KeyResult.from_string (key_string org s) i
  = Return (KeyResult.mk org s (Some i)).
Proof.
  unfold KeyResult.from_string.
  rewrite split_key_string. simpl. by rewrite int_str.
Qed.

Lemma key_string_inj (o1 o2 : Z) (s1 s2 : string) :
  key_string o1 s1 = key_string o2 s2 -> o1 = o2 /\ s1 = s2.
Proof.
  intros E.
  pose proof (from_string_key_string o1 s1 0) as H1.
  rewrite E, from_string_key_string in H1. by injection H1.
Qed.

(** C9: for every integer [org], every string [s] and every id,
    [KeyResult.from_string(f"{org}:{s}", id)] is [KeyResult(org, s, id)],
    also when [s] contains colons. *)
Theorem key_result_from_string_round_trip (org : Z) (s : string) (i : Z) :
  KeyResult.from_string (key_string org s) i
  = Return (KeyResult.mk org s (Some i)).
Proof.
  unfold KeyResult.from_string.
  rewrite split_key_string. simpl. by rewrite int_str.
Qed.
End from_string.

(** ** KeyCollection *)

Section key_collection.
Implicit Types (M : gmap Z (gset string)).

Lemma size_fold M (l : list (Z * gset string)) (a : nat) :
  (forall k v, (k, v) ∈ l -> M !! k = Some v) ->
  foldl (fun total org => (total + len (M !!! org))%nat) a l.*1
  = (a + sum_list_with (fun kv => len kv.2) l)%nat.
Proof.
  revert a. induction l as [|[k v] l IH]; intros a Hl; simpl; [lia|].
  rewrite IH by eauto using list_elem_of_further.
  rewrite (lookup_total_correct M k v) by apply Hl, list_elem_of_here. lia.
Qed.

Lemma size_values M :
  KeyCollection._size M = sum_list_with (fun kv => len kv.2) (map_to_list M).
Proof.
  unfold KeyCollection._size. rewrite (size_fold M); [done|].
  intros k v. apply elem_of_map_to_list.
Qed.

Lemma tuples_fold M (l : list (Z * gset string)) (acc : list (Z * string)) :
  (forall k v, (k, v) ∈ l -> M !! k = Some v) ->
  foldl (fun key_pairs org =>
           key_pairs ++ tuples_of (org, M !!! org))
        acc l.*1
  = acc ++ (l ≫= tuples_of).
Proof.
  revert acc. induction l as [|[k v] l IH]; intros acc Hl; csimpl.
  - by rewrite app_nil_r.
  - rewrite IH by eauto using list_elem_of_further.
    rewrite (lookup_total_correct M k v) by apply Hl, list_elem_of_here.
    by rewrite <- app_assoc.
Qed.

Lemma as_tuples_bind M :
  KeyCollection.as_tuples (KeyCollection.init M) = map_to_list M ≫= tuples_of.
Proof.
  unfold KeyCollection.as_tuples. simpl. rewrite (tuples_fold M); [done|].
  intros k v. apply elem_of_map_to_list.
Qed.

Lemma elem_of_tuples_of (item : Z * gset string) (o : Z) (s : string) :
  (o, s) ∈ tuples_of item <-> o = item.1 /\ s ∈ item.2.
Proof.
  unfold tuples_of. rewrite list_elem_of_fmap. split.
  - intros (s' & [= -> ->] & Hs). by apply elem_of_elements in Hs.
  - intros [-> Hs]. exists s. by rewrite elem_of_elements.
Qed.

Lemma elem_of_as_tuples M (o : Z) (s : string) :
  (o, s) ∈ KeyCollection.as_tuples (KeyCollection.init M)
  <-> exists strings, M !! o = Some strings /\ s ∈ strings.
Proof.
  rewrite as_tuples_bind, list_elem_of_bind. split.
  - intros ([k v] & [-> Hs]%elem_of_tuples_of & Hkv%elem_of_map_to_list).
    eauto.
  - intros (v & Hv & Hs). exists (o, v).
    by rewrite elem_of_tuples_of, elem_of_map_to_list.
Qed.

Lemma length_bind_tuples (l : list (Z * gset string)) :
  length (l ≫= tuples_of) = sum_list_with (fun kv => len kv.2) l.
Proof.
  induction l as [|kv l IH]; csimpl; [done|].
  rewrite length_app, IH. unfold tuples_of. by rewrite length_fmap.
Qed.

Lemma NoDup_bind_tuples (l : list (Z * gset string)) :
  NoDup l.*1 -> NoDup (l ≫= tuples_of).
Proof.
  induction l as [|[k v] l IH]; csimpl; [constructor|].
  intros [Hk Hl]%NoDup_cons. apply NoDup_app. split_and!.
  - apply (NoDup_fmap_2 _), NoDup_elements.
  - intros [o s] [-> _]%elem_of_tuples_of
      ([k' v'] & [Ho _]%elem_of_tuples_of & Hin)%list_elem_of_bind.
    simpl in *. subst k'. apply Hk, list_elem_of_fmap. by exists (k, v').
  - auto.
Qed.

(** C8: for the collection built from a mapping [M], [size] is the sum of
    the sizes of the sets of [M]; [as_tuples] has [size] elements, no
    element twice, and holds exactly the pairs [(org, string)] with
    [string] in [M[org]]; an org mapped to the empty set adds nothing to
    [size]. *)
Theorem key_collection_size_as_tuples M :
  let keys := KeyCollection.init M in
  KeyCollection.mapping keys = M
  /\ KeyCollection.size keys = sum_list (len <$> (map_to_list M).*2)
  /\ length (KeyCollection.as_tuples keys) = KeyCollection.size keys
  /\ NoDup (KeyCollection.as_tuples keys)
  /\ (forall (o : Z) (s : string),
        (o, s) ∈ KeyCollection.as_tuples keys
        <-> exists strings, M !! o = Some strings /\ s ∈ strings)
  /\ (forall o : Z,
        M !! o = None ->
        KeyCollection.size (KeyCollection.init (<[o := ∅]> M))
        = KeyCollection.size keys).
Proof.
  simpl. split_and!.
  - done.
  - rewrite size_values. generalize (map_to_list M). intros l.
    induction l as [|kv l IH]; simpl; [done|]. by rewrite IH.
  - by rewrite as_tuples_bind, length_bind_tuples, size_values.
  - rewrite as_tuples_bind. apply NoDup_bind_tuples, NoDup_fst_map_to_list.
  - apply elem_of_as_tuples.
  - intros o Ho. rewrite !size_values, (map_to_list_insert M o ∅ Ho).
    cbn [sum_list_with snd]. by rewrite size_empty.
Qed.
End key_collection.

(** ** Dictionaries with a default factory *)

Section defaultdict.
Context `{Countable K} {V : Type}.
Implicit Types (d : gmap K V) (k : K) (factory : V).

Lemma getitem_default_value factory k d :
  (getitem_default factory k d).1 = default factory (d !! k).
Proof. unfold getitem_default. by destruct (d !! k). Qed.

Lemma getitem_default_lookup factory k d k' :
  (getitem_default factory k d).2 !! k'
  = if decide (k = k') then Some (default factory (d !! k)) else d !! k'.
Proof.
  unfold getitem_default. destruct (d !! k) as [v|] eqn:E; simpl.
  - case_decide; by subst.
  - by rewrite lookup_insert.
Qed.

Lemma getitem_default_insert factory k d (v : V) :
  <[k := v]> (getitem_default factory k d).2 = <[k := v]> d.
Proof.
  unfold getitem_default. destruct (d !! k); simpl; [done|].
  apply insert_insert_eq.
Qed.
End defaultdict.

Section entries.
Context {V : Type}.
Implicit Types (d : gmap Z (gmap string V)) (strings : gmap string V).

Lemma entry_insert d (o o' : Z) (s : string) strings :
  entry (<[o := strings]> d) o' s
  = if decide (o = o') then strings !! s else entry d o' s.
Proof. unfold entry. rewrite lookup_insert. by case_decide. Qed.

Lemma entry_default d (o : Z) (s : string) :
  default ∅ (d !! o) !! s = entry d o s.
Proof. unfold entry. by destruct (d !! o). Qed.
End entries.

(** ** KeyResults.add_key_result *)

Section add_key_result.
Implicit Types (self : KeyResults.t) (key_result : KeyResult.t).

Lemma add_key_result_results self key_result fetch_type fetch_type_ext :
  KeyResults.results
    (KeyResults.add_key_result self key_result fetch_type fetch_type_ext)
  = <[KeyResult.org_id key_result :=
        <[KeyResult.string key_result := KeyResult.id key_result]>
          (default ∅ (KeyResults.results self !! KeyResult.org_id key_result))]>
      (KeyResults.results self).
Proof.
  unfold KeyResults.add_key_result.
  pose proof (getitem_default_value
                (∅ : gmap string (option Z)) (KeyResult.org_id key_result)
                (KeyResults.results self)) as Hv.
  pose proof (getitem_default_insert
                (∅ : gmap string (option Z)) (KeyResult.org_id key_result)
                (KeyResults.results self)) as Hi.
  destruct (getitem_default _ _ (KeyResults.results self)) as [strings results1].
  simpl in Hv, Hi. subst strings.
  assert (forall (R : gmap Z (gmap string (option Z))) M,
             KeyResults.results (KeyResults.mk R M) = R) as Hproj by done.
  unfold dict_update. rewrite <- insert_union_singleton_l.
  destruct fetch_type;
    [destruct (getitem_default _ _ (KeyResults.meta self))|];
    by rewrite Hproj, Hi.
Qed.

Lemma add_key_result_meta_some self key_result ft fetch_type_ext :
  KeyResults.meta
    (KeyResults.add_key_result self key_result (Some ft) fetch_type_ext)
  = <[KeyResult.org_id key_result :=
        <[KeyResult.string key_result :=
            Metadata.mk (KeyResult.id key_result) ft fetch_type_ext]>
          (default ∅ (KeyResults.meta self !! KeyResult.org_id key_result))]>
      (KeyResults.meta self).
Proof.
  unfold KeyResults.add_key_result.
  destruct (getitem_default _ _ (KeyResults.results self)) as [strings results1].
  pose proof (getitem_default_value
                (∅ : gmap string Metadata.t) (KeyResult.org_id key_result)
                (KeyResults.meta self)) as Hv.
  pose proof (getitem_default_insert
                (∅ : gmap string Metadata.t) (KeyResult.org_id key_result)
                (KeyResults.meta self)) as Hi.
  destruct (getitem_default _ _ (KeyResults.meta self)) as [org_meta meta1].
  simpl in *. subst org_meta. apply Hi.
Qed.

Lemma add_key_result_meta_none self key_result fetch_type_ext :
  KeyResults.meta
    (KeyResults.add_key_result self key_result None fetch_type_ext)
  = KeyResults.meta self.
Proof.
  unfold KeyResults.add_key_result.
  by destruct (getitem_default _ _ (KeyResults.results self)).
Qed.

Lemma entry_upsert {V : Type} (d : gmap Z (gmap string V))
    (o o' : Z) (s s' : string) (v : V) :
  entry (<[o := <[s := v]> (default ∅ (d !! o))]> d) o' s'
  = if decide ((o', s') = (o, s)) then Some v else entry d o' s'.
Proof.
  rewrite entry_insert. destruct (decide (o = o')) as [<-|Ho].
  - rewrite lookup_insert, entry_default.
    destruct (decide (s = s')) as [<-|Hs].
    + by rewrite decide_True.
    + rewrite decide_False; [done|congruence].
  - rewrite decide_False; [done|congruence].
Qed.

(** C6: [add_key_result] stores the id under [(org_id, string)] and
    changes no other entry of [results]. Without a fetch type [meta] is
    left as it was; with a fetch type the metadata of that key is replaced
    and no other entry of [meta] changes. A second call on the same key
    replaces what the first one stored. *)
Theorem add_key_result_upsert self key_result fetch_type fetch_type_ext :
  let self' :=
    KeyResults.add_key_result self key_result fetch_type fetch_type_ext in
  let o := KeyResult.org_id key_result in
  let s := KeyResult.string key_result in
  entry (KeyResults.results self') o s = Some (KeyResult.id key_result)
  /\ (forall o' s', (o', s') <> (o, s) ->
        entry (KeyResults.results self') o' s'
        = entry (KeyResults.results self) o' s')
  /\ (fetch_type = None -> KeyResults.meta self' = KeyResults.meta self)
  /\ (forall ft, fetch_type = Some ft ->
        entry (KeyResults.meta self') o s
        = Some (Metadata.mk (KeyResult.id key_result) ft fetch_type_ext)
        /\ forall o' s', (o', s') <> (o, s) ->
             entry (KeyResults.meta self') o' s'
             = entry (KeyResults.meta self) o' s')
  /\ (forall later_id later_type later_ext,
        let self'' :=
          KeyResults.add_key_result self' (KeyResult.mk o s later_id)
                                    later_type later_ext in
        entry (KeyResults.results self'') o s = Some later_id
        /\ (later_type = None ->
            KeyResults.meta self'' = KeyResults.meta self')
        /\ (forall ft, later_type = Some ft ->
              entry (KeyResults.meta self'') o s
              = Some (Metadata.mk later_id ft later_ext))).
Proof.
  intros self' o s. subst self' o s. split_and!.
  - rewrite add_key_result_results, entry_upsert. by rewrite decide_True.
  - intros o' s' Hne. rewrite add_key_result_results, entry_upsert.
    by rewrite decide_False.
  - intros ->. apply add_key_result_meta_none.
  - intros ft ->. rewrite add_key_result_meta_some. split.
    + rewrite entry_upsert. by rewrite decide_True.
    + intros o' s' Hne. rewrite entry_upsert. by rewrite decide_False.
  - intros later_id later_type later_ext. simpl. split_and!.
    + rewrite (add_key_result_results _ (KeyResult.mk _ _ later_id)).
      simpl. rewrite entry_upsert. by rewrite decide_True.
    + intros ->. apply add_key_result_meta_none.
    + intros ft ->.
      rewrite (add_key_result_meta_some _ (KeyResult.mk _ _ later_id)).
      simpl. rewrite entry_upsert. by rewrite decide_True.
Qed.
End add_key_result.

(** ** KeyResults.merge *)

Section merge.
Context {V : Type}.
Implicit Types (acc d : gmap Z (gmap string V)).
Implicit Types (items : list (Z * gmap string V)).

Lemma update_all_cons acc (item : Z * gmap string V) items :
  KeyResults.update_all acc (item :: items)
  = KeyResults.update_all
      (<[item.1 := item.2 ∪ default ∅ (acc !! item.1)]> acc) items.
Proof.
  unfold KeyResults.update_all. simpl. f_equal.
  pose proof (getitem_default_value (∅ : gmap string V) item.1 acc) as Hv.
  pose proof (getitem_default_insert (∅ : gmap string V) item.1 acc) as Hi.
  destruct (getitem_default _ _ acc) as [strings acc1]. simpl in *.
  subst strings. apply Hi.
Qed.

Lemma update_all_app acc items1 items2 :
  KeyResults.update_all acc (items1 ++ items2)
  = KeyResults.update_all (KeyResults.update_all acc items1) items2.
Proof. apply foldl_app. Qed.

Lemma update_all_lookup acc items (o : Z) :
  NoDup items.*1 ->
  KeyResults.update_all acc items !! o
  = match (list_to_map items : gmap Z (gmap string V)) !! o with
    | Some strings => Some (strings ∪ default ∅ (acc !! o))
    | None => acc !! o
    end.
Proof.
  revert acc. induction items as [|[k v] items IH]; intros acc Hnd; [done|].
  apply NoDup_cons in Hnd as [Hk Hnd].
  rewrite update_all_cons, IH by done. simpl.
  destruct (decide (k = o)) as [->|Hne].
  - rewrite lookup_insert_eq, (not_elem_of_list_to_map_1 _ _ Hk).
    by rewrite lookup_insert_eq.
  - by rewrite !(lookup_insert_ne _ k o).
Qed.

Lemma update_all_dict acc d (o : Z) :
  KeyResults.update_all acc (map_to_list d) !! o
  = match d !! o with
    | Some strings => Some (strings ∪ default ∅ (acc !! o))
    | None => acc !! o
    end.
Proof.
  rewrite update_all_lookup by apply NoDup_fst_map_to_list.
  by rewrite list_to_map_to_list.
Qed.

(** Two dictionaries poured one after the other into an empty
    [defaultdict(dict)]: the entry of the second one wins. *)
Lemma entry_update_twice (first second : gmap Z (gmap string V))
    (o : Z) (s : string) :
  entry (KeyResults.update_all (KeyResults.update_all ∅ (map_to_list first))
                               (map_to_list second)) o s
  = match entry second o s with
    | Some v => Some v
    | None => entry first o s
    end.
Proof.
  unfold entry. rewrite !update_all_dict, lookup_empty. simpl.
  destruct (second !! o) as [d2|], (first !! o) as [d1|]; simpl;
    rewrite ?lookup_union, ?lookup_empty;
    try destruct (d2 !! s); try destruct (d1 !! s); done.
Qed.
End merge.

Section merge_key_results.
Implicit Types (A B : KeyResults.t).

Lemma merge_results_entry A B (o : Z) (s : string) :
  entry (KeyResults.results (KeyResults.merge A B)) o s
  = match entry (KeyResults.results A) o s with
    | Some i => Some i
    | None => entry (KeyResults.results B) o s
    end.
Proof.
  unfold KeyResults.merge. simpl. rewrite update_all_app.
  apply entry_update_twice.
Qed.

Lemma merge_meta_entry A B (o : Z) (s : string) :
  entry (KeyResults.meta (KeyResults.merge A B)) o s
  = match entry (KeyResults.meta B) o s with
    | Some m => Some m
    | None => entry (KeyResults.meta A) o s
    end.
Proof. unfold KeyResults.merge. simpl. apply entry_update_twice. Qed.

(** C2: in [A.merge(B)], a key recorded in both results holds the id of
    [A], a key with metadata on both sides holds the metadata of [B], and
    a key recorded on one side only keeps what that side holds, in
    [results] and in [meta]. *)
Theorem merge_self_id_other_meta A B (o : Z) (s : string) :
  let merged := KeyResults.merge A B in
  (forall a b,
      entry (KeyResults.results A) o s = Some a ->
      entry (KeyResults.results B) o s = Some b ->
      entry (KeyResults.results merged) o s = Some a)
  /\ (forall ma mb,
      entry (KeyResults.meta A) o s = Some ma ->
      entry (KeyResults.meta B) o s = Some mb ->
      entry (KeyResults.meta merged) o s = Some mb)
  /\ (entry (KeyResults.results B) o s = None ->
      entry (KeyResults.results merged) o s = entry (KeyResults.results A) o s)
  /\ (entry (KeyResults.results A) o s = None ->
      entry (KeyResults.results merged) o s = entry (KeyResults.results B) o s)
  /\ (entry (KeyResults.meta B) o s = None ->
      entry (KeyResults.meta merged) o s = entry (KeyResults.meta A) o s)
  /\ (entry (KeyResults.meta A) o s = None ->
      entry (KeyResults.meta merged) o s = entry (KeyResults.meta B) o s).
Proof.
  cbv zeta. rewrite merge_results_entry, merge_meta_entry. split_and!.
  - by intros a b -> _.
  - by intros ma mb _ ->.
  - intros ->. by destruct (entry (KeyResults.results A) o s).
  - by intros ->.
  - by intros ->.
  - intros ->. by destruct (entry (KeyResults.meta B) o s).
Qed.
End merge_key_results.

(** ** KeyResults.get_mapped_results *)

Section get_mapped_results.
Implicit Types (self : KeyResults.t).
Local Open Scope string_scope.

Lemma get_mapped_results_lookup self (o : Z) (strings : gmap string (option Z)) :
  KeyResults.get_mapped_results self !! o = Some strings
  <-> KeyResults.results self !! o = Some strings /\ strings <> ∅.
Proof.
  unfold KeyResults.get_mapped_results. rewrite map_lookup_filter_Some.
  simpl. rewrite <- map_size_non_empty_iff. intuition lia.
Qed.

(** C4, as stated, fails: after recording "a" for org 1 with a null id
    (a rate-limited string), org 1 is returned although none of its
    strings is resolved. *)
Lemma get_mapped_results_unresolved_org :
  ~ returns_only_resolved_orgs
      (KeyResults.add_key_result KeyResults.init
         (KeyResult.mk 1 "a" None) (Some RATE_LIMITED) None).
Proof.
  intros Hclaim.
  destruct (Hclaim 1 {["a" := None]}) as (s & i & Hs).
  - apply get_mapped_results_lookup. split; [done|].
    apply insert_non_empty.
  - apply lookup_singleton_Some in Hs as [_ [=]].
Qed.

(** C4, amended: [get_mapped_results] returns exactly the org entries of
    [results] whose sub-mapping is not empty, each with its sub-mapping
    as stored (its strings may all have a null id); it never returns an
    org with an empty sub-mapping. *)
Theorem get_mapped_results_non_empty self (o : Z)
    (strings : gmap string (option Z)) :
  (KeyResults.get_mapped_results self !! o = Some strings
   <-> KeyResults.results self !! o = Some strings /\ strings <> ∅)
  /\ KeyResults.get_mapped_results self !! o <> Some ∅.
Proof.
  split; [apply get_mapped_results_lookup|].
  intros [_ Hne]%get_mapped_results_lookup. done.
Qed.
End get_mapped_results.

(** ** KeyResults.get_unmapped_keys *)

Section get_unmapped_keys.
Implicit Types (r : gmap Z (gmap string (option Z))).
Implicit Types (u : gmap Z (gset string)).
Implicit Types (l : list (Z * gset string)).
Local Open Scope string_scope.

Lemma getitem_default_vivify r (o : Z) :
  (getitem_default ∅ o r).2 = vivify o r.
Proof.
  unfold getitem_default, vivify. destruct (r !! o) eqn:E; simpl; [|done].
  by rewrite insert_id.
Qed.

Lemma recorded_id_vivify r (k o : Z) (s : string) :
  recorded_id (vivify k r) o s = recorded_id r o s.
Proof.
  unfold recorded_id, vivify. rewrite lookup_insert.
  case_decide; by subst.
Qed.

Lemma vivify_vivify r (o : Z) : vivify o (vivify o r) = vivify o r.
Proof.
  unfold vivify. rewrite lookup_insert_eq. simpl. apply insert_insert_eq.
Qed.

Lemma unmapped_step_closed (o : Z) (st : _ * _) (s : string) :
  KeyResults.unmapped_step o st s
  = (vivify o st.1, add_unmapped (unmapped st.1) o st.2 s).
Proof.
  unfold KeyResults.unmapped_step, add_unmapped, unmapped, recorded_id.
  pose proof (getitem_default_value (∅ : gmap string (option Z)) o st.1) as Hv.
  pose proof (getitem_default_vivify st.1 o) as Hr.
  destruct (getitem_default _ o st.1) as [strings results1].
  simpl in Hv, Hr. subst strings results1.
  destruct (negb _); [|done].
  pose proof (getitem_default_value (∅ : gset string) o st.2) as Hv.
  pose proof (getitem_default_insert (∅ : gset string) o st.2) as Hi.
  destruct (getitem_default _ o st.2) as [strings unmapped1].
  simpl in Hv, Hi. subst strings. by rewrite Hi.
Qed.

Lemma add_unmapped_ext (f g : Z -> string -> bool) (o : Z) u (s : string) :
  f o s = g o s -> add_unmapped f o u s = add_unmapped g o u s.
Proof. unfold add_unmapped. by intros ->. Qed.

(** The inner loop: the org is read once the set has a string, and the
    test can be taken on the results the call started from. *)
Lemma inner_loop r0 (o : Z) (ss : list string) (st : _ * _) :
  (forall o' s', recorded_id st.1 o' s' = recorded_id r0 o' s') ->
  foldl (KeyResults.unmapped_step o) st ss
  = (match ss with [] => st.1 | _ => vivify o st.1 end,
     foldl (add_unmapped (unmapped r0) o) st.2 ss).
Proof.
  revert st. induction ss as [|s ss IH]; intros [r u] Hst; [done|].
  simpl in Hst. cbn [foldl]. rewrite unmapped_step_closed, IH; simpl.
  - f_equal.
    + destruct ss; [done|apply vivify_vivify].
    + f_equal. apply add_unmapped_ext. unfold unmapped.
      by rewrite (Hst o s).
  - intros o' s'. rewrite recorded_id_vivify. apply Hst.
Qed.

Lemma recorded_id_read_org r item (o : Z) (s : string) :
  recorded_id (read_org r item) o s = recorded_id r o s.
Proof.
  unfold read_org. destruct (elements item.2); [done|].
  apply recorded_id_vivify.
Qed.

Lemma outer_loop r0 l (st : _ * _) :
  (forall o' s', recorded_id st.1 o' s' = recorded_id r0 o' s') ->
  foldl (fun st item =>
           foldl (KeyResults.unmapped_step item.1) st (elements item.2)) st l
  = (foldl read_org st.1 l,
     foldl (fun u item =>
              foldl (add_unmapped (unmapped r0) item.1) u (elements item.2))
           st.2 l).
Proof.
  revert st. induction l as [|item l IH]; intros [r u] Hst; [done|].
  simpl in Hst. cbn [foldl]. rewrite (inner_loop r0) by done. rewrite IH; [done|].
  intros o' s'. simpl. rewrite <- (Hst o' s').
  apply (recorded_id_read_org r item).
Qed.

Lemma get_unmapped_keys_closed (self : KeyResults.t) (keys : KeyCollection.t) :
  KeyResults.get_unmapped_keys self keys
  = (KeyCollection.init
       (foldl (fun u item =>
                 foldl (add_unmapped (unmapped (KeyResults.results self)) item.1)
                       u (elements item.2))
              ∅ (map_to_list (KeyCollection.mapping keys))),
     KeyResults.mk
       (foldl read_org (KeyResults.results self)
              (map_to_list (KeyCollection.mapping keys)))
       (KeyResults.meta self)).
Proof.
  unfold KeyResults.get_unmapped_keys.
  by rewrite (outer_loop (KeyResults.results self)).
Qed.
End get_unmapped_keys.

Section unmapped_result.
Implicit Types (r : gmap Z (gmap string (option Z))).
Implicit Types (u : gmap Z (gset string)).
Implicit Types (l : list (Z * gset string)).
Implicit Types (test : Z -> string -> bool).
Local Open Scope string_scope.

Lemma read_org_lookup r (item : Z * gset string) (o : Z) :
  read_org r item !! o
  = match r !! o with
    | Some d => Some d
    | None => if decide (item.1 = o /\ item.2 <> ∅) then Some ∅ else None
    end.
Proof.
  unfold read_org. destruct (elements item.2) as [|s ss] eqn:E.
  - apply elements_empty_inv, leibniz_equiv in E.
    destruct (r !! o); [done|]. rewrite decide_False; [done|tauto].
  - assert (item.2 <> ∅) as Hne.
    { intros Heq. rewrite Heq, elements_empty in E. done. }
    unfold vivify. rewrite lookup_insert.
    destruct (decide (item.1 = o)) as [<-|Ho].
    + destruct (r !! item.1); [done|]. by rewrite decide_True.
    + destruct (r !! o); [done|]. rewrite decide_False; [done|tauto].
Qed.

Lemma read_org_fold_lookup l r (o : Z) :
  NoDup l.*1 ->
  foldl read_org r l !! o
  = match r !! o with
    | Some d => Some d
    | None =>
        match (list_to_map l : gmap Z (gset string)) !! o with
        | Some strings => if decide (strings = ∅) then None else Some ∅
        | None => None
        end
    end.
Proof.
  revert r. induction l as [|[k v] l IH]; intros r Hnd; simpl.
  - rewrite lookup_empty. by destruct (r !! o).
  - apply NoDup_cons in Hnd as [Hk Hnd].
    rewrite IH, read_org_lookup by done. simpl.
    destruct (r !! o) as [d|]; [done|].
    destruct (decide (k = o)) as [->|Hne].
    + rewrite lookup_insert_eq, (not_elem_of_list_to_map_1 _ _ Hk).
      destruct (decide (v = ∅)).
      * rewrite decide_False; [done|tauto].
      * by rewrite decide_True.
    + rewrite lookup_insert_ne by done.
      rewrite decide_False; [done|tauto].
Qed.

Lemma holds_add_unmapped test (o : Z) u (s : string) (o' : Z) (s' : string) :
  holds (add_unmapped test o u s) o' s'
  <-> holds u o' s' \/ (o = o' /\ s = s' /\ test o s = true).
Proof.
  unfold holds, add_unmapped. destruct (test o s); [|naive_solver].
  rewrite lookup_insert. destruct (decide (o = o')) as [<-|Hne]; simpl.
  - rewrite elem_of_union, elem_of_singleton. naive_solver.
  - naive_solver.
Qed.

Lemma holds_inner test (o : Z) (ss : list string) u (o' : Z) (s' : string) :
  holds (foldl (add_unmapped test o) u ss) o' s'
  <-> holds u o' s' \/ (o = o' /\ s' ∈ ss /\ test o s' = true).
Proof.
  revert u. induction ss as [|s ss IH]; intros u; simpl.
  - rewrite elem_of_nil. naive_solver.
  - rewrite IH, holds_add_unmapped, elem_of_cons. naive_solver.
Qed.

Lemma holds_outer test l u (o : Z) (s : string) :
  holds (foldl (fun u item =>
                  foldl (add_unmapped test item.1) u (elements item.2)) u l)
        o s
  <-> holds u o s
      \/ exists strings, (o, strings) ∈ l /\ s ∈ strings /\ test o s = true.
Proof.
  revert u. induction l as [|[k v] l IH]; intros u; simpl.
  - setoid_rewrite elem_of_nil. naive_solver.
  - rewrite IH, holds_inner, elem_of_elements.
    setoid_rewrite elem_of_cons. naive_solver.
Qed.

Lemma elem_of_as_tuples_holds (keys : KeyCollection.t) (o : Z) (s : string) :
  (o, s) ∈ KeyCollection.as_tuples keys
  <-> holds (KeyCollection.mapping keys) o s.
Proof.
  change (KeyCollection.as_tuples keys)
    with (KeyCollection.as_tuples (KeyCollection.init (KeyCollection.mapping keys))).
  rewrite elem_of_as_tuples. unfold holds.
  destruct (KeyCollection.mapping keys !! o) as [v|]; simpl.
  - naive_solver.
  - rewrite elem_of_empty. naive_solver.
Qed.

Lemma unmapped_keys_elem_of (self : KeyResults.t) (keys : KeyCollection.t)
    (o : Z) (s : string) :
  (o, s) ∈ KeyCollection.as_tuples (KeyResults.get_unmapped_keys self keys).1
  <-> (o, s) ∈ KeyCollection.as_tuples keys
      /\ truthy (recorded_id (KeyResults.results self) o s) = false.
Proof.
  rewrite get_unmapped_keys_closed. cbn [fst].
  rewrite !elem_of_as_tuples_holds. cbn [KeyCollection.mapping KeyCollection.init].
  rewrite holds_outer. split.
  - intros [Hh | (strings & Hin & Hs & Ht)].
    + unfold holds in Hh. rewrite lookup_empty in Hh. simpl in Hh.
      by apply elem_of_empty in Hh.
    + apply elem_of_map_to_list in Hin. split.
      * unfold holds. by rewrite Hin.
      * unfold unmapped in Ht. by apply negb_true_iff.
  - intros [Hh Ht]. right. unfold holds in Hh.
    destruct (KeyCollection.mapping keys !! o) as [v|] eqn:E; simpl in Hh.
    + exists v. rewrite elem_of_map_to_list. split_and!; [done..|].
      unfold unmapped. by apply negb_true_iff.
    + by apply elem_of_empty in Hh.
Qed.

(** C3: a key [(org_id, string)] of the collection is in the collection
    returned by [get_unmapped_keys] exactly when
    [results[org_id].get(string)] is false, that is when the key was never
    recorded or was recorded with [None] or [0]; and the collection
    returned has no other keys. *)
Theorem get_unmapped_keys_complement (self : KeyResults.t)
    (keys : KeyCollection.t) (o : Z) (s : string) :
  let left := (KeyResults.get_unmapped_keys self keys).1 in
  ((o, s) ∈ KeyCollection.as_tuples keys ->
   ((o, s) ∈ KeyCollection.as_tuples left
    <-> truthy (recorded_id (KeyResults.results self) o s) = false))
  /\ ((o, s) ∈ KeyCollection.as_tuples keys ->
      ((o, s) ∈ KeyCollection.as_tuples left
       <-> entry (KeyResults.results self) o s = None
           \/ entry (KeyResults.results self) o s = Some None
           \/ entry (KeyResults.results self) o s = Some (Some 0)))
  /\ ((o, s) ∈ KeyCollection.as_tuples left ->
      (o, s) ∈ KeyCollection.as_tuples keys).
Proof.
  cbv zeta. rewrite unmapped_keys_elem_of. split_and!; [tauto| |tauto].
  intros Hin.
  assert (truthy (recorded_id (KeyResults.results self) o s) = false
          <-> entry (KeyResults.results self) o s = None
              \/ entry (KeyResults.results self) o s = Some None
              \/ entry (KeyResults.results self) o s = Some (Some 0)) as <-;
    [|tauto].
  unfold recorded_id, dict_get. rewrite entry_default.
  destruct (entry (KeyResults.results self) o s) as [[i|]|]; simpl.
  - rewrite negb_false_iff, Z.eqb_eq. naive_solver.
  - naive_solver.
  - naive_solver.
Qed.

Lemma get_unmapped_keys_results (self : KeyResults.t) (keys : KeyCollection.t)
    (o : Z) :
  KeyResults.results (KeyResults.get_unmapped_keys self keys).2 !! o
  = match KeyResults.results self !! o with
    | Some d => Some d
    | None =>
        match KeyCollection.mapping keys !! o with
        | Some strings => if decide (strings = ∅) then None else Some ∅
        | None => None
        end
    end.
Proof.
  rewrite get_unmapped_keys_closed. cbn [snd KeyResults.results].
  rewrite read_org_fold_lookup by apply NoDup_fst_map_to_list.
  by rewrite list_to_map_to_list.
Qed.

(** C10, as stated, fails: an org of the collection whose set of strings
    is empty is not stored in the receiver. *)
Lemma get_unmapped_keys_skips_empty_org :
  ~ vivifies_every_org KeyResults.init (KeyCollection.init {[1 := ∅]}).
Proof.
  intros Hclaim. specialize (Hclaim 1).
  rewrite get_unmapped_keys_results in Hclaim. simpl in Hclaim.
  rewrite lookup_empty, lookup_singleton_eq in Hclaim.
  rewrite decide_True in Hclaim by done.
  assert (@None (gmap string (option Z)) = Some ∅) as [=].
  apply Hclaim; [|done]. rewrite dom_singleton_L. set_solver.
Qed.

(** C10, amended: [get_unmapped_keys] changes its receiver: every org of
    the collection that has at least one string and that [results] lacked
    is stored in [results] with an empty sub-mapping; an org whose set is
    empty is not stored; every org already in [results] keeps its
    sub-mapping, so no entry [(org_id, string) -> id] changes, and [meta]
    is left as it was. *)
Theorem get_unmapped_keys_receiver (self : KeyResults.t)
    (keys : KeyCollection.t) (o : Z) (s : string) :
  let self' := (KeyResults.get_unmapped_keys self keys).2 in
  KeyResults.results self' !! o
  = match KeyResults.results self !! o with
    | Some d => Some d
    | None =>
        match KeyCollection.mapping keys !! o with
        | Some strings => if decide (strings = ∅) then None else Some ∅
        | None => None
        end
    end
  /\ entry (KeyResults.results self') o s = entry (KeyResults.results self) o s
  /\ KeyResults.meta self' = KeyResults.meta self.
Proof.
  cbv zeta. split_and!.
  - apply get_unmapped_keys_results.
  - unfold entry. rewrite get_unmapped_keys_results.
    destruct (KeyResults.results self !! o); [done|].
    destruct (KeyCollection.mapping keys !! o) as [v|]; [|done].
    by destruct (decide (v = ∅)).
  - by rewrite get_unmapped_keys_closed.
Qed.
End unmapped_result.

(** ** Flat exports *)

Section dict_of_items.
Context `{Countable K} {V : Type}.
Implicit Types (acc : gmap K V) (l : list (K * V)) (k : K) (v : V).

Lemma store_items_Some acc l k v :
  foldl (fun acc kv => <[kv.1 := kv.2]> acc) acc l !! k = Some v ->
  (k, v) ∈ l \/ acc !! k = Some v.
Proof.
  revert acc. induction l as [|[k' v'] l IH]; intros acc; simpl; [auto|].
  intros [Hin|Hacc]%IH.
  - left. by apply list_elem_of_further.
  - apply lookup_insert_Some in Hacc as [[-> ->]|[_ Hacc]]; [|auto].
    left. apply list_elem_of_here.
Qed.

Lemma store_items_is_Some acc l k :
  (exists v, (k, v) ∈ l) \/ is_Some (acc !! k) ->
  is_Some (foldl (fun acc kv => <[kv.1 := kv.2]> acc) acc l !! k).
Proof.
  revert acc. induction l as [|[k' v'] l IH]; intros acc; simpl.
  - intros [[v Hv]|Hacc]; [|done]. by apply elem_of_nil in Hv.
  - intros [[v Hv]|Hacc]; apply IH.
    + apply elem_of_cons in Hv as [[= -> ->]|Hv]; [right|left; eauto].
      by rewrite lookup_insert_eq.
    + right. rewrite lookup_insert. case_decide; [done|apply Hacc].
Qed.

Lemma store_items_unique acc l k v :
  (forall v', (k, v') ∈ l -> v' = v) ->
  (k, v) ∈ l \/ acc !! k = Some v ->
  foldl (fun acc kv => <[kv.1 := kv.2]> acc) acc l !! k = Some v.
Proof.
  revert acc. induction l as [|[k' v'] l IH]; intros acc Huniq; simpl.
  - intros [Hin|Hacc]; [|done]. by apply elem_of_nil in Hin.
  - intros Hor. apply IH.
    { intros v'' Hin. apply Huniq. by apply list_elem_of_further. }
    destruct (decide (k' = k)) as [->|Hne].
    + right. rewrite lookup_insert_eq. f_equal. apply Huniq.
      apply list_elem_of_here.
    + destruct Hor as [Hin|Hacc].
      * apply elem_of_cons in Hin as [[= -> ->]|Hin]; [done|by left].
      * right. by rewrite lookup_insert_ne.
Qed.

Lemma store_items_absent acc l k :
  (forall v, (k, v) ∉ l) ->
  foldl (fun acc kv => <[kv.1 := kv.2]> acc) acc l !! k = acc !! k.
Proof.
  revert acc. induction l as [|[k' v'] l IH]; intros acc Hno; simpl; [done|].
  rewrite IH by (intros v Hv; apply (Hno v); by apply list_elem_of_further).
  apply lookup_insert_ne. intros ->. apply (Hno v'), list_elem_of_here.
Qed.

Lemma store_items_bind {A : Type} (g : A -> list (K * V)) (xs : list A) acc :
  foldl (fun acc x => foldl (fun acc kv => <[kv.1 := kv.2]> acc) acc (g x))
        acc xs
  = foldl (fun acc kv => <[kv.1 := kv.2]> acc) acc (xs ≫= g).
Proof.
  revert acc. induction xs as [|x xs IH]; intros acc; csimpl; [done|].
  by rewrite foldl_app, IH.
Qed.
End dict_of_items.

Section exports.
Implicit Types (self : KeyResults.t) (ucs : UseCaseKeyResults.t).
Local Open Scope string_scope.

Lemma export_inner (item : Z * gmap string (option Z))
    (es : list (string * option Z)) (acc : gmap string Z) :
  foldl (fun cache_key_results entry =>
           let key := key_string item.1 entry.1 in
           match entry.2 with
           | Some i => <[key := i]> cache_key_results
           | None => cache_key_results
           end) acc es
  = foldl (fun acc kv => <[kv.1 := kv.2]> acc) acc
          (omap (fun entry => (fun i => (key_string item.1 entry.1, i)) <$> entry.2)
                es).
Proof.
  revert acc. induction es as [|[s [i|]] es IH]; intros acc; simpl; auto.
Qed.

Lemma export_flat self :
  KeyResults.get_mapped_key_strings_to_ints self
  = dict_of_items (map_to_list (KeyResults.results self) ≫= export_items).
Proof.
  unfold KeyResults.get_mapped_key_strings_to_ints, dict_of_items.
  rewrite <- store_items_bind. generalize (∅ : gmap string Z).
  induction (map_to_list (KeyResults.results self)) as [|item l IH];
    intros acc; simpl; [done|].
  by rewrite IH, export_inner.
Qed.

Lemma elem_of_export_items self (key : string) (i : Z) :
  (key, i) ∈ map_to_list (KeyResults.results self) ≫= export_items
  <-> exists o s, key = key_string o s
                  /\ entry (KeyResults.results self) o s = Some (Some i).
Proof.
  rewrite list_elem_of_bind. unfold export_items, entry. split.
  - intros ([o d] & Hin & Hod%elem_of_map_to_list). simpl in Hin.
    apply list_elem_of_omap in Hin as ([s v] & Hs%elem_of_map_to_list & Hv).
    simpl in Hv. destruct v as [v|]; [|done]. injection Hv as <- <-.
    exists o, s. by rewrite Hod.
  - intros (o & s & -> & Hos).
    destruct (KeyResults.results self !! o) as [d|] eqn:Hod; [|done].
    simpl in Hos. exists (o, d). rewrite elem_of_map_to_list.
    split; [|done]. simpl. apply list_elem_of_omap.
    exists (s, Some i). by rewrite elem_of_map_to_list.
Qed.

Lemma export_lookup self (key : string) (i : Z) :
  KeyResults.get_mapped_key_strings_to_ints self !! key = Some i
  <-> exists o s, key = key_string o s
                  /\ entry (KeyResults.results self) o s = Some (Some i).
Proof.
  rewrite export_flat, <- elem_of_export_items. unfold dict_of_items. split.
  - intros [Hin|Hempty]%store_items_Some; [done|].
    by rewrite lookup_empty in Hempty.
  - intros Hin. apply store_items_unique; [|by left].
    intros i' Hin'.
    apply elem_of_export_items in Hin as (o & s & -> & Hi).
    apply elem_of_export_items in Hin' as (o' & s' & Hk & Hi').
    apply key_string_inj in Hk as [<- <-]. congruence.
Qed.
End exports.

Section use_case_exports.
Implicit Types (self : KeyResults.t) (ucs : UseCaseKeyResults.t).
Implicit Types (order : list string).
Local Open Scope string_scope.

Lemma export_ordered order ucs :
  UseCaseKeyResults.get_mapped_strings_to_ints order ucs
  = dict_of_items (order ≫= use_case_items_of ucs).
Proof. done. Qed.

Lemma elem_of_use_case_items_of ucs (use_case key : string) (i : Z) :
  (key, i) ∈ use_case_items_of ucs use_case
  <-> exists key_results o s,
        UseCaseKeyResults.results ucs !! use_case = Some key_results
        /\ entry (KeyResults.results key_results) o s = Some (Some i)
        /\ key = use_case_key_string use_case (key_string o s).
Proof.
  unfold use_case_items_of, use_case_items.
  destruct (UseCaseKeyResults.results ucs !! use_case) as [kr|]; simpl.
  - rewrite list_elem_of_fmap. split.
    + intros ([k v] & [= -> ->] & Hk).
      apply elem_of_map_to_list, export_lookup in Hk as (o & s & -> & Hos).
      by exists kr, o, s.
    + intros (kr' & o & s & [= <-] & Hos & ->).
      exists (key_string o s, i). split; [done|].
      apply elem_of_map_to_list, export_lookup. eauto.
  - rewrite elem_of_nil. split; [done|]. by intros (? & ? & ? & [=] & _).
Qed.

Lemma elem_of_use_case_items order ucs (key : string) (i : Z) :
  (key, i) ∈ order ≫= use_case_items_of ucs
  <-> exists use_case key_results o s,
        use_case ∈ order
        /\ UseCaseKeyResults.results ucs !! use_case = Some key_results
        /\ entry (KeyResults.results key_results) o s = Some (Some i)
        /\ key = use_case_key_string use_case (key_string o s).
Proof.
  rewrite list_elem_of_bind. split.
  - intros (uc & (kr & o & s & Hkr & Hos & ->)%elem_of_use_case_items_of & Hin).
    by exists uc, kr, o, s.
  - intros (uc & kr & o & s & Hin & Hkr & Hos & ->). exists uc.
    split; [|done]. apply elem_of_use_case_items_of. by exists kr, o, s.
Qed.

Lemma use_case_key_string_inj (uc1 uc2 k1 k2 : string) :
  colon_free uc1 = true -> colon_free uc2 = true ->
  use_case_key_string uc1 k1 = use_case_key_string uc2 k2 ->
  uc1 = uc2 /\ k1 = k2.
Proof.
  unfold colon_free, use_case_key_string. intros H1 H2 E.
  change (":" +:+ k1) with (String ":" k1) in E.
  change (":" +:+ k2) with (String ":" k2) in E.
  pose proof (partition_at_app ":" uc1 k1 H1) as P1.
  rewrite E, (partition_at_app ":" uc2 k2 H2) in P1. by injection P1.
Qed.

Lemma use_case_key_string_same (use_case k1 k2 : string) :
  use_case_key_string use_case k1 = use_case_key_string use_case k2 ->
  k1 = k2.
Proof.
  unfold use_case_key_string. induction use_case as [|c uc IH]; simpl.
  - intros [= E]. exact E.
  - intros [= E]. by apply IH.
Qed.

(** C7, as stated, fails for the use-case variant: with the use cases "a"
    and "a:1", recorded in this order, the entries [("a", 1, "2:x") -> 5]
    and [("a:1", 2, "x") -> 6] are both written "a:1:2:x"; the mapping
    returned holds that key once, with the id 6, and the id 5 is lost. *)
Lemma mapped_strings_to_ints_collision :
  ~ exports_every_entry ["a"; "a:1"] Scenario.colliding.
Proof.
  intros Hclaim.
  specialize (Hclaim "a"
                (KeyResults.add_key_result KeyResults.init
                   (KeyResult.mk 1 "2:x" (Some 5)) (Some DB_READ) None)
                1 "2:x" 5 eq_refl eq_refl).
  vm_compute in Hclaim. discriminate Hclaim.
Qed.

(** C7, amended: [get_mapped_key_strings_to_ints] holds exactly the entries
    of [results] with a non-null id, each under the key
    ["{org_id}:{string}"] and with its id. Every entry of
    [get_mapped_strings_to_ints] is such an entry of one use case, under
    the key ["{use_case_id}:{org_id}:{string}"] and with its id, and every
    such key is in the mapping. A key holds the id of the entry written
    that way in the last use case that has one; so when no use-case id
    holds a colon, every entry is in the mapping with its own id. *)
Theorem mapped_strings_to_ints_flat :
  (forall self (key : string) (i : Z),
      KeyResults.get_mapped_key_strings_to_ints self !! key = Some i
      <-> exists o s, key = key_string o s
                      /\ entry (KeyResults.results self) o s = Some (Some i))
  /\ (forall order ucs (key : string) (i : Z),
        UseCaseKeyResults.get_mapped_strings_to_ints order ucs !! key = Some i ->
        exists use_case key_results o s,
          use_case ∈ order
          /\ UseCaseKeyResults.results ucs !! use_case = Some key_results
          /\ entry (KeyResults.results key_results) o s = Some (Some i)
          /\ key = use_case_key_string use_case (key_string o s))
  /\ (forall order ucs (use_case : string) key_results
             (o : Z) (s : string) (i : Z),
        use_case ∈ order ->
        UseCaseKeyResults.results ucs !! use_case = Some key_results ->
        entry (KeyResults.results key_results) o s = Some (Some i) ->
        is_Some (UseCaseKeyResults.get_mapped_strings_to_ints order ucs
                   !! use_case_key_string use_case (key_string o s)))
  /\ (forall before after ucs (use_case : string) key_results
             (o : Z) (s : string) (i : Z),
        UseCaseKeyResults.results ucs !! use_case = Some key_results ->
        entry (KeyResults.results key_results) o s = Some (Some i) ->
        (forall later key_results' o' s' i',
            later ∈ after ->
            UseCaseKeyResults.results ucs !! later = Some key_results' ->
            entry (KeyResults.results key_results') o' s' = Some (Some i') ->
            use_case_key_string later (key_string o' s')
            <> use_case_key_string use_case (key_string o s)) ->
        UseCaseKeyResults.get_mapped_strings_to_ints
          (before ++ use_case :: after) ucs
          !! use_case_key_string use_case (key_string o s) = Some i)
  /\ (forall order ucs (use_case : string) key_results
             (o : Z) (s : string) (i : Z),
        map_Forall (fun uc _ => colon_free uc = true)
                   (UseCaseKeyResults.results ucs) ->
        use_case ∈ order ->
        UseCaseKeyResults.results ucs !! use_case = Some key_results ->
        entry (KeyResults.results key_results) o s = Some (Some i) ->
        UseCaseKeyResults.get_mapped_strings_to_ints order ucs
          !! use_case_key_string use_case (key_string o s) = Some i).
Proof.
  split_and!.
  - apply export_lookup.
  - intros order ucs key i Hout. apply elem_of_use_case_items.
    rewrite export_ordered in Hout. unfold dict_of_items in Hout.
    apply store_items_Some in Hout as [Hin|Hempty]; [done|].
    by rewrite lookup_empty in Hempty.
  - intros order ucs uc kr o s i Hin Hkr Hos.
    rewrite export_ordered. unfold dict_of_items.
    apply store_items_is_Some. left. exists i.
    apply elem_of_use_case_items. by exists uc, kr, o, s.
  - intros before after ucs uc kr o s i Hkr Hos Hlast.
    rewrite export_ordered. unfold dict_of_items.
    rewrite bind_app, bind_cons, !foldl_app.
    rewrite store_items_absent.
    + apply store_items_unique.
      * intros i' (kr' & o' & s' & Hkr' & Hos' & E)%elem_of_use_case_items_of.
        apply use_case_key_string_same, key_string_inj in E as [-> ->].
        congruence.
      * left. apply elem_of_use_case_items_of. by exists kr, o, s.
    + intros i' (uc' & kr' & o' & s' & Hin & Hkr' & Hos' & E)%elem_of_use_case_items.
      by apply (Hlast uc' kr' o' s' i').
  - intros order ucs uc kr o s i Hfree Hin Hkr Hos.
    rewrite export_ordered. unfold dict_of_items.
    apply store_items_unique.
    + intros i' (uc' & kr' & o' & s' & _ & Hkr' & Hos' & E)%elem_of_use_case_items.
      apply use_case_key_string_inj in E as [-> [-> ->]%key_string_inj];
        [congruence|by apply (Hfree _ _ Hkr)|by apply (Hfree _ _ Hkr')].
    + left. apply elem_of_use_case_items. by exists uc, kr, o, s.
Qed.
End use_case_exports.

(** ** UseCaseKeyResults.merge *)

Section use_case_merge.
Implicit Types (A B : UseCaseKeyResults.t).

Lemma merge_use_case_lookup A B (use_case : string) :
  UseCaseKeyResults.results (UseCaseKeyResults.merge A B) !! use_case
  = if bool_decide (use_case ∈ dom (UseCaseKeyResults.results A)
                                ∪ dom (UseCaseKeyResults.results B))
    then Some (UseCaseKeyResults.merge_use_case A B use_case)
    else None.
Proof.
  unfold UseCaseKeyResults.merge. simpl. case_bool_decide as Hin.
  - apply lookup_set_to_map; [by intros ?? _ _ [= ->]|]. eauto.
  - apply eq_None_not_Some. intros [kr Hkr].
    apply lookup_set_to_map in Hkr as (uc & Huc & [= -> _]);
      [done|by intros ?? _ _ [= ->]].
Qed.

(** C5: the use cases of [A.merge(B)] are those of [A] together with
    those of [B]; a use case of both holds the merge of [A]'s KeyResults
    with [B]'s, a use case of one side only holds that side's
    KeyResults. *)
Theorem use_case_merge_union A B (use_case : string) :
  let merged := UseCaseKeyResults.results (UseCaseKeyResults.merge A B) in
  dom merged
  = dom (UseCaseKeyResults.results A) ∪ dom (UseCaseKeyResults.results B)
  /\ (forall a b,
        UseCaseKeyResults.results A !! use_case = Some a ->
        UseCaseKeyResults.results B !! use_case = Some b ->
        merged !! use_case = Some (KeyResults.merge a b))
  /\ (forall a,
        UseCaseKeyResults.results A !! use_case = Some a ->
        UseCaseKeyResults.results B !! use_case = None ->
        merged !! use_case = Some a)
  /\ (forall b,
        UseCaseKeyResults.results A !! use_case = None ->
        UseCaseKeyResults.results B !! use_case = Some b ->
        merged !! use_case = Some b)
  /\ (UseCaseKeyResults.results A !! use_case = None ->
      UseCaseKeyResults.results B !! use_case = None ->
      merged !! use_case = None).
Proof.
  cbv zeta. split_and!.
  - apply set_eq. intros uc. rewrite elem_of_dom, merge_use_case_lookup.
    case_bool_decide; [by split; eauto|]. split; [by intros [? [=]]|done].
  - intros a b Ha Hb. rewrite merge_use_case_lookup.
    unfold UseCaseKeyResults.merge_use_case.
    rewrite !bool_decide_eq_true_2
      by (rewrite ?elem_of_union, !elem_of_dom; eauto).
    simpl. by rewrite (lookup_total_correct _ _ _ Ha),
                      (lookup_total_correct _ _ _ Hb).
  - intros a Ha Hb. rewrite merge_use_case_lookup.
    unfold UseCaseKeyResults.merge_use_case.
    rewrite (bool_decide_eq_true_2 (_ ∈ _ ∪ _))
      by (rewrite elem_of_union, !elem_of_dom; eauto).
    rewrite (bool_decide_eq_true_2 (_ ∈ dom (UseCaseKeyResults.results A)))
      by (rewrite elem_of_dom; eauto).
    rewrite (bool_decide_eq_false_2 (_ ∈ dom (UseCaseKeyResults.results B)))
      by (rewrite elem_of_dom, Hb; by intros [? [=]]).
    simpl. by rewrite (lookup_total_correct _ _ _ Ha).
  - intros b Ha Hb. rewrite merge_use_case_lookup.
    unfold UseCaseKeyResults.merge_use_case.
    rewrite (bool_decide_eq_true_2 (_ ∈ _ ∪ _))
      by (rewrite elem_of_union, !elem_of_dom; eauto).
    rewrite (bool_decide_eq_false_2 (_ ∈ dom (UseCaseKeyResults.results A)))
      by (rewrite elem_of_dom, Ha; by intros [? [=]]).
    simpl. by rewrite (lookup_total_correct _ _ _ Hb).
  - intros Ha Hb. rewrite merge_use_case_lookup.
    rewrite bool_decide_eq_false_2; [done|].
    rewrite elem_of_union, !elem_of_dom, Ha, Hb. by intros [[? [=]]|[? [=]]].
Qed.
End use_case_merge.

(** ** The scenarios, evaluated *)

Section scenarios.
Local Open Scope string_scope.

Example unmapped_after_cache_hit :
  KeyCollection.mapping
    (KeyResults.get_unmapped_keys Scenario.cache_stage Scenario.keys).1
  = {[1 := {["b"]}; 2 := {["e"]}]}.
Proof. vm_compute. reflexivity. Qed.

Example merged_id_and_metadata :
  let merged := KeyResults.merge Scenario.hardcoded_stage Scenario.db_stage in
  entry (KeyResults.results merged) 1 "a" = Some (Some 10)
  /\ entry (KeyResults.meta merged) 1 "a"
     = Some (Metadata.mk (Some 20) DB_READ None).
Proof. vm_compute. split; reflexivity. Qed.

Example batch_export :
  UseCaseKeyResults.get_mapped_strings_to_ints ["perf"; "spans"] Scenario.batch
  = {["perf:1:x" := 5; "spans:1:y" := 6]}.
Proof. vm_compute. reflexivity. Qed.

Example colliding_export :
  UseCaseKeyResults.get_mapped_strings_to_ints ["a"; "a:1"] Scenario.colliding
  = {["a:1:2:x" := 6]}
  /\ UseCaseKeyResults.get_mapped_strings_to_ints ["a:1"; "a"] Scenario.colliding
     = {["a:1:2:x" := 5]}.
Proof. vm_compute. split; reflexivity. Qed.

Lemma merge_self_id_other_meta_witness :
  entry (KeyResults.results
           (KeyResults.merge Scenario.hardcoded_stage Scenario.db_stage)) 1 "a"
  = Some (Some 10)
  /\ entry (KeyResults.meta
              (KeyResults.merge Scenario.hardcoded_stage Scenario.db_stage)) 1 "a"
     = Some (Metadata.mk (Some 20) DB_READ None).
Proof.
  destruct (merge_self_id_other_meta
              Scenario.hardcoded_stage Scenario.db_stage 1 "a")
    as (Hid & Hmeta & _).
  split.
  - apply (Hid (Some 10) (Some 20)); reflexivity.
  - apply (Hmeta (Metadata.mk (Some 10) HARDCODED None)
                 (Metadata.mk (Some 20) DB_READ None)); reflexivity.
Defined.

Lemma get_unmapped_keys_complement_witness :
  (1, "b") ∈ KeyCollection.as_tuples Scenario.keys
  /\ (1, "b") ∈ KeyCollection.as_tuples
                  (KeyResults.get_unmapped_keys Scenario.cache_stage
                                                Scenario.keys).1.
Proof.
  assert ((1, "b") ∈ KeyCollection.as_tuples Scenario.keys) as Hin.
  { vm_compute. apply list_elem_of_further, list_elem_of_further,
      list_elem_of_here. }
  split; [exact Hin|].
  apply (proj1 (get_unmapped_keys_complement
                  Scenario.cache_stage Scenario.keys 1 "b") Hin).
  reflexivity.
Defined.

Lemma use_case_merge_union_witness :
  UseCaseKeyResults.results
    (UseCaseKeyResults.merge Scenario.perf_hardcoded Scenario.perf_db) !! "perf"
  = Some (KeyResults.merge Scenario.hardcoded_stage Scenario.db_stage).
Proof.
  apply (proj1 (proj2 (use_case_merge_union
                         Scenario.perf_hardcoded Scenario.perf_db "perf")));
    reflexivity.
Defined.

Lemma add_key_result_upsert_witness :
  KeyResults.meta
    (KeyResults.add_key_result Scenario.cache_stage
       (KeyResult.mk 1 "a" (Some 11)) None None)
  = KeyResults.meta Scenario.cache_stage.
Proof.
  apply (proj1 (proj2 (proj2 (add_key_result_upsert
                                Scenario.cache_stage
                                (KeyResult.mk 1 "a" (Some 11)) None None)))).
  reflexivity.
Defined.

Lemma mapped_strings_to_ints_flat_witness :
  UseCaseKeyResults.get_mapped_strings_to_ints ["perf"; "spans"] Scenario.batch
    !! "perf:1:x" = Some 5
  /\ UseCaseKeyResults.get_mapped_strings_to_ints ["a"; "a:1"] Scenario.colliding
       !! "a:1:2:x" = Some 6.
Proof.
  destruct mapped_strings_to_ints_flat as (_ & _ & _ & Hlast & Hexact).
  split.
  - apply (Hexact ["perf"; "spans"] Scenario.batch "perf"
             (KeyResults.add_key_result KeyResults.init
                (KeyResult.mk 1 "x" (Some 5)) (Some FIRST_SEEN) None)
             1 "x" 5).
    + refine (bool_decide_unpack _ _). vm_compute. exact I.
    + apply list_elem_of_here.
    + reflexivity.
    + reflexivity.
  - apply (Hlast ["a"] [] Scenario.colliding "a:1"
             (KeyResults.add_key_result KeyResults.init
                (KeyResult.mk 2 "x" (Some 6)) (Some DB_READ) None)
             2 "x" 6).
    + reflexivity.
    + reflexivity.
    + intros later key_results' o' s' i' Hin. by apply elem_of_nil in Hin.
Defined.

Lemma key_collection_size_as_tuples_witness :
  KeyCollection.mapping Scenario.keys !! 3 = None
  /\ KeyCollection.size
       (KeyCollection.init (<[3 := ∅]> (KeyCollection.mapping Scenario.keys)))
     = KeyCollection.size Scenario.keys.
Proof.
  split; [reflexivity|].
  apply (proj2 (proj2 (proj2 (proj2 (proj2
           (key_collection_size_as_tuples
              (KeyCollection.mapping Scenario.keys))))))).
  reflexivity.
Defined.
End scenarios.

(** * Further properties of the containers *)

(** ** KeyCollection.as_strings *)

Section as_strings.
Implicit Types (M : gmap Z (gset string)) (keys : KeyCollection.t).

Lemma strings_fold M (l : list (Z * gset string)) (acc : list string) :
  (forall k v, (k, v) ∈ l -> M !! k = Some v) ->
  foldl (fun ks org => ks ++ (key_string org <$> elements (M !!! org)))
        acc l.*1
  = acc ++ ((fun p => key_string p.1 p.2) <$> (l ≫= tuples_of)).
Proof.
  revert acc. induction l as [|[k v] l IH]; intros acc Hl; csimpl.
  - by rewrite app_nil_r.
  - rewrite IH by eauto using list_elem_of_further.
    rewrite (lookup_total_correct M k v) by apply Hl, list_elem_of_here.
    rewrite fmap_app, <- app_assoc. do 2 f_equal.
    unfold tuples_of. by rewrite <- list_fmap_compose.
Qed.

Lemma as_strings_render keys :
  KeyCollection.as_strings keys
  = (fun p => key_string p.1 p.2) <$> KeyCollection.as_tuples keys.
Proof.
  change (KeyCollection.as_tuples keys)
    with (KeyCollection.as_tuples (KeyCollection.init (KeyCollection.mapping keys))).
  rewrite as_tuples_bind. unfold KeyCollection.as_strings.
  rewrite (strings_fold (KeyCollection.mapping keys)); [done|].
  intros k v. apply elem_of_map_to_list.
Qed.

Lemma NoDup_as_tuples keys : NoDup (KeyCollection.as_tuples keys).
Proof.
  change (KeyCollection.as_tuples keys)
    with (KeyCollection.as_tuples (KeyCollection.init (KeyCollection.mapping keys))).
  rewrite as_tuples_bind. apply NoDup_bind_tuples, NoDup_fst_map_to_list.
Qed.

(** X1: [as_strings] is [as_tuples] with each pair written
    ["{org_id}:{string}"], in the same order; no string occurs twice, and
    for a collection built from a mapping there are [size] of them. *)
Theorem as_strings_distinct M :
  let keys := KeyCollection.init M in
  KeyCollection.as_strings keys
  = (fun p => key_string p.1 p.2) <$> KeyCollection.as_tuples keys
  /\ NoDup (KeyCollection.as_strings keys)
  /\ length (KeyCollection.as_strings keys) = KeyCollection.size keys.
Proof.
  cbv zeta. rewrite as_strings_render. split_and!; [done| |].
  - apply NoDup_fmap_2_strong; [|apply NoDup_as_tuples].
    intros [o1 s1] [o2 s2] _ _ E. simpl in E.
    by apply key_string_inj in E as [-> ->].
  - rewrite length_fmap, as_tuples_bind, length_bind_tuples.
    symmetry. apply size_values.
Qed.

(** X2: every string of [as_strings] parses back: [KeyResult.from_string]
    returns, for any id, the key result of a pair of [as_tuples]. *)
Theorem as_strings_parse keys (key : string) (i : Z) :
  key ∈ KeyCollection.as_strings keys ->
  exists o s,
    (o, s) ∈ KeyCollection.as_tuples keys
    /\ KeyResult.from_string key i = Return (KeyResult.mk o s (Some i)).
Proof.
  rewrite as_strings_render.
  intros ([o s] & -> & Hin)%list_elem_of_fmap.
  exists o, s. split; [done|]. apply from_string_key_string.
Qed.
End as_strings.

(** ** The algebra of KeyResults.merge *)

Section merge_algebra.
Implicit Types (A B C : KeyResults.t).

Lemma update_twice_lookup {V : Type} (first second : gmap Z (gmap string V))
    (o : Z) :
  KeyResults.update_all (KeyResults.update_all ∅ (map_to_list first))
                        (map_to_list second) !! o
  = union_with (fun b a => Some (b ∪ a)) (second !! o) (first !! o).
Proof.
  rewrite !update_all_dict, lookup_empty. simpl.
  destruct (second !! o) as [b|], (first !! o) as [a|]; simpl;
    by rewrite ?(right_id_L ∅ (∪)).
Qed.

Lemma merge_union_with A B :
  KeyResults.merge A B
  = KeyResults.mk
      (union_with (fun a b => Some (a ∪ b))
                  (KeyResults.results A) (KeyResults.results B))
      (union_with (fun b a => Some (b ∪ a))
                  (KeyResults.meta B) (KeyResults.meta A)).
Proof.
  unfold KeyResults.merge. rewrite update_all_app. f_equal.
  - apply map_eq. intros o. by rewrite update_twice_lookup, lookup_union_with.
  - apply map_eq. intros o. by rewrite update_twice_lookup, lookup_union_with.
Qed.

(** X3: merging with a KeyResults that holds nothing, on either side,
    gives back a KeyResults equal to the other one. *)
Theorem merge_empty A :
  KeyResults.merge A KeyResults.init = A
  /\ KeyResults.merge KeyResults.init A = A.
Proof.
  rewrite !merge_union_with. destruct A as [r m]. simpl. split; f_equal.
  - apply map_eq. intros o. rewrite lookup_union_with, lookup_empty.
    by destruct (r !! o).
  - apply map_eq. intros o. rewrite lookup_union_with, lookup_empty.
    by destruct (m !! o).
  - apply map_eq. intros o. rewrite lookup_union_with, lookup_empty.
    by destruct (r !! o).
  - apply map_eq. intros o. rewrite lookup_union_with, lookup_empty.
    by destruct (m !! o).
Qed.

(** X4: merging is associative: [A.merge(B).merge(C)] and
    [A.merge(B.merge(C))] are equal. *)
Theorem merge_assoc A B C :
  KeyResults.merge (KeyResults.merge A B) C
  = KeyResults.merge A (KeyResults.merge B C).
Proof.
  rewrite !merge_union_with. simpl. f_equal.
  - apply map_eq. intros o. rewrite !lookup_union_with.
    destruct (KeyResults.results A !! o), (KeyResults.results B !! o),
      (KeyResults.results C !! o); simpl; try done.
    by rewrite (assoc_L (∪)).
  - apply map_eq. intros o. rewrite !lookup_union_with.
    destruct (KeyResults.meta A !! o), (KeyResults.meta B !! o),
      (KeyResults.meta C !! o); simpl; try done.
    by rewrite (assoc_L (∪)).
Qed.

(** X5: merging a KeyResults with itself changes nothing. *)
Theorem merge_idemp A : KeyResults.merge A A = A.
Proof.
  rewrite merge_union_with. destruct A as [r m]. simpl. f_equal.
  - apply map_eq. intros o. rewrite lookup_union_with.
    destruct (r !! o); simpl; [|done]. by rewrite (idemp_L (∪)).
  - apply map_eq. intros o. rewrite lookup_union_with.
    destruct (m !! o); simpl; [|done]. by rewrite (idemp_L (∪)).
Qed.

(** X6: the orgs of the merged results are those of either side, and the
    same holds of the merged metadata; an org stored with an empty
    sub-mapping on one side is an org of the merge. *)
Theorem merge_dom A B :
  dom (KeyResults.results (KeyResults.merge A B))
  = dom (KeyResults.results A) ∪ dom (KeyResults.results B)
  /\ dom (KeyResults.meta (KeyResults.merge A B))
     = dom (KeyResults.meta A) ∪ dom (KeyResults.meta B).
Proof.
  rewrite merge_union_with. simpl. split; apply set_eq; intros o;
    rewrite elem_of_union, !elem_of_dom, lookup_union_with.
  - destruct (KeyResults.results A !! o), (KeyResults.results B !! o);
      simpl; split; eauto; intros [[? [=]]|[? [=]]].
  - destruct (KeyResults.meta A !! o), (KeyResults.meta B !! o);
      simpl; split; eauto; intros [[? [=]]|[? [=]]].
Qed.
End merge_algebra.

(** ** Reading a KeyResults *)

Section reading.
Implicit Types (self : KeyResults.t).

(** X7: [get_mapped_results] loses no entry: under every org and string
    it holds what [results] holds; only orgs without any string are left
    out. *)
Theorem get_mapped_results_entries self (o : Z) (s : string) :
  entry (KeyResults.get_mapped_results self) o s
  = entry (KeyResults.results self) o s.
Proof.
  unfold entry.
  destruct (KeyResults.get_mapped_results self !! o) as [d|] eqn:E.
  - apply get_mapped_results_lookup in E as [-> _]. done.
  - destruct (KeyResults.results self !! o) as [d|] eqn:E'; [|done].
    simpl. destruct (decide (d = ∅)) as [->|Hne]; [by rewrite lookup_empty|].
    assert (KeyResults.get_mapped_results self !! o = Some d) as Hd
      by (by apply get_mapped_results_lookup).
    congruence.
Qed.

(** X8: [__getitem__] never fails: it returns the sub-mapping of the org,
    empty for an org not seen before, and leaves the org stored; no entry
    of [results] and nothing of [meta] changes, and reading again returns
    the same. *)
Theorem getitem_default_mapping self (o : Z) :
  let '(strings, self') := KeyResults.getitem self o in
  strings = default ∅ (KeyResults.results self !! o)
  /\ KeyResults.results self' !! o = Some strings
  /\ (forall o', o' <> o ->
        KeyResults.results self' !! o' = KeyResults.results self !! o')
  /\ (forall o' s,
        entry (KeyResults.results self') o' s
        = entry (KeyResults.results self) o' s)
  /\ KeyResults.meta self' = KeyResults.meta self
  /\ KeyResults.getitem self' o = (strings, self').
Proof.
  unfold KeyResults.getitem.
  pose proof (getitem_default_value
                (∅ : gmap string (option Z)) o (KeyResults.results self)) as Hv.
  pose proof (getitem_default_lookup
                (∅ : gmap string (option Z)) o (KeyResults.results self)) as Hl.
  destruct (getitem_default _ o (KeyResults.results self)) as [strings r1].
  simpl in Hv, Hl. subst strings. simpl. split_and!; [done| | | |done|].
  - by rewrite Hl, decide_True.
  - intros o' Hne. by rewrite Hl, decide_False.
  - intros o' s. unfold entry. rewrite Hl. case_decide; [subst|done].
    by destruct (KeyResults.results self !! o').
  - unfold getitem_default. rewrite Hl, decide_True by done. done.
Qed.
End reading.

(** ** More on KeyResults.get_unmapped_keys *)

Section unmapped_more.
Implicit Types (self : KeyResults.t) (keys : KeyCollection.t).
Implicit Types (u : gmap Z (gset string)).

Lemma add_unmapped_non_empty (test : Z -> string -> bool) (o : Z) u (s : string) :
  map_Forall (fun _ strings => strings <> ∅) u ->
  map_Forall (fun _ strings => strings <> ∅) (add_unmapped test o u s).
Proof.
  intros Hu. unfold add_unmapped. destruct (test o s); [|done].
  apply map_Forall_insert_2; [|done]. set_solver.
Qed.

Lemma unmapped_fold_non_empty (test : Z -> string -> bool)
    (l : list (Z * gset string)) u :
  map_Forall (fun _ strings => strings <> ∅) u ->
  map_Forall (fun _ strings => strings <> ∅)
    (foldl (fun u item =>
              foldl (add_unmapped test item.1) u (elements item.2)) u l).
Proof.
  revert u. induction l as [|item l IH]; intros u Hu; simpl; [done|].
  apply IH. generalize (elements item.2). intros ss. revert u Hu.
  induction ss as [|s ss IHs]; intros u Hu; simpl; [done|].
  by apply IHs, add_unmapped_non_empty.
Qed.

Lemma unmapped_mapping_non_empty self keys :
  map_Forall (fun _ strings => strings <> ∅)
    (KeyCollection.mapping (KeyResults.get_unmapped_keys self keys).1).
Proof.
  rewrite get_unmapped_keys_closed. simpl.
  apply unmapped_fold_non_empty, map_Forall_empty.
Qed.

Lemma holds_ext (m1 m2 : gmap Z (gset string)) :
  map_Forall (fun _ strings => strings <> ∅) m1 ->
  map_Forall (fun _ strings => strings <> ∅) m2 ->
  (forall o s, holds m1 o s <-> holds m2 o s) ->
  m1 = m2.
Proof.
  intros H1 H2 Heq. apply map_eq. intros o.
  pose proof (fun s => Heq o s) as Ho. unfold holds in Ho.
  destruct (m1 !! o) as [S1|] eqn:E1, (m2 !! o) as [S2|] eqn:E2;
    simpl in Ho; [| | |done].
  - f_equal. apply set_eq. intros s. apply Ho.
  - specialize (H1 o S1 E1). exfalso. apply H1. apply set_eq. intros s.
    rewrite (Ho s). done.
  - specialize (H2 o S2 E2). exfalso. apply H2. apply set_eq. intros s.
    rewrite <- (Ho s). done.
Qed.

Lemma recorded_id_receiver self keys (o : Z) (s : string) :
  recorded_id (KeyResults.results (KeyResults.get_unmapped_keys self keys).2) o s
  = recorded_id (KeyResults.results self) o s.
Proof.
  unfold recorded_id. rewrite get_unmapped_keys_results.
  destruct (KeyResults.results self !! o); [done|].
  destruct (KeyCollection.mapping keys !! o) as [v|]; [|done].
  by destruct (decide (v = ∅)).
Qed.

Lemma unmapped_is_init self keys :
  (KeyResults.get_unmapped_keys self keys).1
  = KeyCollection.init
      (KeyCollection.mapping (KeyResults.get_unmapped_keys self keys).1).
Proof. by rewrite get_unmapped_keys_closed. Qed.

(** X9: the collection [get_unmapped_keys] returns has no org with an empty
    set of strings, and its [size] is the number of its keys. *)
Theorem get_unmapped_keys_no_empty_org self keys :
  let left := (KeyResults.get_unmapped_keys self keys).1 in
  (forall o strings,
      KeyCollection.mapping left !! o = Some strings -> strings <> ∅)
  /\ KeyCollection.size left = length (KeyCollection.as_tuples left).
Proof.
  cbv zeta. split; [apply unmapped_mapping_non_empty|].
  rewrite unmapped_is_init at 1 2. rewrite as_tuples_bind, length_bind_tuples.
  apply size_values.
Qed.

(** X10: asking again changes nothing: [get_unmapped_keys] called on the
    collection it returned, with the receiver as the first call left it,
    returns an equal collection. *)
Theorem get_unmapped_keys_idemp self keys :
  let first := KeyResults.get_unmapped_keys self keys in
  (KeyResults.get_unmapped_keys first.2 first.1).1 = first.1.
Proof.
  cbv zeta. rewrite (unmapped_is_init self keys) at 2.
  rewrite (unmapped_is_init _ (KeyResults.get_unmapped_keys self keys).1).
  f_equal. apply holds_ext; [apply unmapped_mapping_non_empty..|].
  intros o s. rewrite <- !elem_of_as_tuples_holds, !unmapped_keys_elem_of.
  rewrite recorded_id_receiver. tauto.
Qed.

(** X11: the collection returned is empty, with [size] zero, exactly when
    every key of the collection given has a true id in [results]. *)
Theorem get_unmapped_keys_empty_iff self keys :
  let left := (KeyResults.get_unmapped_keys self keys).1 in
  (KeyCollection.size left = 0%nat
   <-> forall o s, (o, s) ∈ KeyCollection.as_tuples keys ->
                   truthy (recorded_id (KeyResults.results self) o s) = true)
  /\ (KeyCollection.size left = 0%nat <-> KeyCollection.mapping left = ∅).
Proof.
  cbv zeta.
  assert (KeyCollection.size (KeyResults.get_unmapped_keys self keys).1
          = length (KeyCollection.as_tuples
                      (KeyResults.get_unmapped_keys self keys).1)) as ->.
  { rewrite unmapped_is_init at 1 2.
    rewrite as_tuples_bind, length_bind_tuples. apply size_values. }
  rewrite length_zero_iff_nil. split.
  - split.
    + intros Hnil o s Hin.
      destruct (truthy (recorded_id (KeyResults.results self) o s)) eqn:E;
        [done|].
      assert ((o, s) ∈ KeyCollection.as_tuples
                         (KeyResults.get_unmapped_keys self keys).1) as Hleft
        by (by apply unmapped_keys_elem_of).
      rewrite Hnil in Hleft. by apply elem_of_nil in Hleft.
    + intros Hall. apply elem_of_nil_inv. intros [o s] Hin.
      apply unmapped_keys_elem_of in Hin as [Hin Hf].
      rewrite (Hall o s Hin) in Hf. done.
  - split.
    + intros Hnil. apply map_empty. intros o.
      destruct (KeyCollection.mapping _ !! o) as [strings|] eqn:E; [|done].
      pose proof (unmapped_mapping_non_empty self keys o strings E) as Hne.
      exfalso. apply Hne. apply set_eq. intros s.
      rewrite elem_of_empty. split; [|done]. intros Hs.
      assert ((o, s) ∈ KeyCollection.as_tuples
                         (KeyResults.get_unmapped_keys self keys).1) as Hleft.
      { apply elem_of_as_tuples_holds. unfold holds. by rewrite E. }
      rewrite Hnil in Hleft. by apply elem_of_nil in Hleft.
    + intros Hempty. apply elem_of_nil_inv. intros [o s] Hin.
      apply elem_of_as_tuples_holds in Hin. unfold holds in Hin.
      rewrite Hempty, lookup_empty in Hin. by apply elem_of_empty in Hin.
Qed.

Lemma recorded_id_entry (r : gmap Z (gmap string (option Z))) (o : Z) (s : string) :
  recorded_id r o s = match entry r o s with Some v => v | None => None end.
Proof. unfold recorded_id, dict_get. by rewrite entry_default. Qed.

(** X12: recording a key takes it out of the unmapped keys when its id is
    true and leaves it among them when its id is [None] or [0]; whether any
    other key is unmapped does not change. *)
Theorem get_unmapped_keys_after_add self keys (key_result : KeyResult.t)
    (fetch_type : option FetchType) (fetch_type_ext : option FetchTypeExt.t)
    (o : Z) (s : string) :
  let self' :=
    KeyResults.add_key_result self key_result fetch_type fetch_type_ext in
  let left := (KeyResults.get_unmapped_keys self keys).1 in
  let left' := (KeyResults.get_unmapped_keys self' keys).1 in
  ((o, s) = (KeyResult.org_id key_result, KeyResult.string key_result) ->
   ((o, s) ∈ KeyCollection.as_tuples left'
    <-> (o, s) ∈ KeyCollection.as_tuples keys
        /\ truthy (KeyResult.id key_result) = false))
  /\ ((o, s) <> (KeyResult.org_id key_result, KeyResult.string key_result) ->
      ((o, s) ∈ KeyCollection.as_tuples left'
       <-> (o, s) ∈ KeyCollection.as_tuples left)).
Proof.
  cbv zeta. rewrite !unmapped_keys_elem_of, !recorded_id_entry.
  rewrite add_key_result_results, entry_upsert. split.
  - intros Heq. by rewrite decide_True.
  - intros Hne. by rewrite decide_False.
Qed.
End unmapped_more.

(** ** KeyResults.add_key_results *)

Section add_key_results.
Implicit Types (self : KeyResults.t) (key_results : list KeyResult.t).

Lemma latest_cons (o : Z) (s : string) (key_result : KeyResult.t) key_results :
  latest o s (key_result :: key_results)
  = match latest o s key_results with
    | Some later => Some later
    | None =>
        if decide ((o, s) = (KeyResult.org_id key_result,
                             KeyResult.string key_result))
        then Some key_result else None
    end.
Proof.
  unfold latest. rewrite filter_cons.
  destruct (decide (KeyResult.org_id key_result = o
                    /\ KeyResult.string key_result = s)) as [[<- <-]|Hne].
  - rewrite last_cons, decide_True by done.
    by destruct (last _).
  - rewrite decide_False; [by destruct (last _)|].
    intros [= -> ->]. by apply Hne.
Qed.

Lemma add_key_results_results self key_results fetch_type fetch_type_ext
    (o : Z) (s : string) :
  entry (KeyResults.results
           (KeyResults.add_key_results self key_results fetch_type fetch_type_ext))
        o s
  = match latest o s key_results with
    | Some key_result => Some (KeyResult.id key_result)
    | None => entry (KeyResults.results self) o s
    end.
Proof.
  unfold KeyResults.add_key_results. revert self.
  induction key_results as [|kr krs IH]; intros self; [done|].
  cbn [foldl]. rewrite IH, latest_cons.
  destruct (latest o s krs); [done|].
  rewrite add_key_result_results, entry_upsert. by case_decide.
Qed.

Lemma add_key_results_meta_some self key_results ft fetch_type_ext
    (o : Z) (s : string) :
  entry (KeyResults.meta
           (KeyResults.add_key_results self key_results (Some ft) fetch_type_ext))
        o s
  = match latest o s key_results with
    | Some key_result =>
        Some (Metadata.mk (KeyResult.id key_result) ft fetch_type_ext)
    | None => entry (KeyResults.meta self) o s
    end.
Proof.
  unfold KeyResults.add_key_results. revert self.
  induction key_results as [|kr krs IH]; intros self; [done|].
  cbn [foldl]. rewrite IH, latest_cons.
  destruct (latest o s krs); [done|].
  rewrite add_key_result_meta_some, entry_upsert. by case_decide.
Qed.

Lemma add_key_results_meta_none self key_results fetch_type_ext :
  KeyResults.meta
    (KeyResults.add_key_results self key_results None fetch_type_ext)
  = KeyResults.meta self.
Proof.
  unfold KeyResults.add_key_results. revert self.
  induction key_results as [|kr krs IH]; intros self; [done|].
  cbn [foldl]. by rewrite IH, add_key_result_meta_none.
Qed.

(** X13: after [add_key_results], a key holds the id of the last key
    result of the sequence that is about it, and what it held before when
    the sequence has none; with a fetch type the same goes for its
    metadata, and without one [meta] is left as it was. *)
Theorem add_key_results_last_wins self key_results fetch_type fetch_type_ext
    (o : Z) (s : string) :
  let self' :=
    KeyResults.add_key_results self key_results fetch_type fetch_type_ext in
  entry (KeyResults.results self') o s
  = match latest o s key_results with
    | Some key_result => Some (KeyResult.id key_result)
    | None => entry (KeyResults.results self) o s
    end
  /\ match fetch_type with
     | Some ft =>
         entry (KeyResults.meta self') o s
         = match latest o s key_results with
           | Some key_result =>
               Some (Metadata.mk (KeyResult.id key_result) ft fetch_type_ext)
           | None => entry (KeyResults.meta self) o s
           end
     | None => KeyResults.meta self' = KeyResults.meta self
     end.
Proof.
  cbv zeta. split; [apply add_key_results_results|].
  destruct fetch_type.
  - apply add_key_results_meta_some.
  - apply add_key_results_meta_none.
Qed.

End add_key_results.

(** ** Exported keys parse back *)

Section export_round_trip.
Implicit Types (self : KeyResults.t).

(** X14: every key of [get_mapped_key_strings_to_ints] parses back:
    [KeyResult.from_string], given the key and its id, returns the org, the
    string and the id of an entry of [results]. *)
Theorem export_parses_back self (key : string) (i : Z) :
  KeyResults.get_mapped_key_strings_to_ints self !! key = Some i ->
  exists o s,
    KeyResult.from_string key i = Return (KeyResult.mk o s (Some i))
    /\ entry (KeyResults.results self) o s = Some (Some i).
Proof.
  intros (o & s & -> & Hos)%export_lookup. exists o, s.
  split; [apply from_string_key_string|done].
Qed.

(** X15: an id of [0] is exported although [get_unmapped_keys] takes the
    key for unmapped: the export leaves out null ids only. *)
Theorem export_keeps_zero self keys (o : Z) (s : string) :
  entry (KeyResults.results self) o s = Some (Some 0) ->
  (o, s) ∈ KeyCollection.as_tuples keys ->
  KeyResults.get_mapped_key_strings_to_ints self !! key_string o s = Some 0
  /\ (o, s) ∈ KeyCollection.as_tuples (KeyResults.get_unmapped_keys self keys).1.
Proof.
  intros Hos Hin. split.
  - apply export_lookup. eauto.
  - apply unmapped_keys_elem_of. split; [done|].
    by rewrite recorded_id_entry, Hos.
Qed.
End export_round_trip.

(** ** UseCaseKeyCollection *)

Section use_case_key_collection.
Implicit Types (self : UseCaseKeyCollection.t).
Implicit Types (args : gmap string UseCaseKeyCollection.keys_arg).

Lemma elem_of_use_case_tuples self (use_case : string) (o : Z) (s : string) :
  (use_case, o, s) ∈ UseCaseKeyCollection.as_tuples self
  <-> exists keys,
        UseCaseKeyCollection.mapping self !! use_case = Some keys
        /\ (o, s) ∈ KeyCollection.as_tuples keys.
Proof.
  unfold UseCaseKeyCollection.as_tuples. rewrite list_elem_of_bind. split.
  - intros ([uc keys] & Hin & Hkeys%elem_of_map_to_list). simpl in Hin.
    apply list_elem_of_fmap in Hin as ([o' s'] & [= -> -> ->] & Hin).
    eauto.
  - intros (keys & Hkeys & Hin). exists (use_case, keys).
    rewrite elem_of_map_to_list. split; [|done]. simpl.
    apply list_elem_of_fmap. by exists (o, s).
Qed.

Lemma NoDup_use_case_tuples self :
  NoDup (UseCaseKeyCollection.as_tuples self).
Proof.
  unfold UseCaseKeyCollection.as_tuples. apply NoDup_bind.
  - intros [uc1 k1] [uc2 k2] [[uc o] s] Hin1%elem_of_map_to_list
      Hin2%elem_of_map_to_list H1 H2. simpl in *.
    apply list_elem_of_fmap in H1 as (p1 & [= -> _ _] & _).
    apply list_elem_of_fmap in H2 as (p2 & [= -> _ _] & _).
    f_equal. congruence.
  - intros [uc keys] _. simpl. apply NoDup_fmap_2_strong; [|apply NoDup_as_tuples].
    intros [o1 s1] [o2 s2] _ _ [= -> ->]. done.
  - apply NoDup_map_to_list.
Qed.

Lemma use_case_size_length (l : list (string * KeyCollection.t)) :
  Forall (fun item =>
            KeyCollection.size item.2
            = length (KeyCollection.as_tuples item.2)) l ->
  sum_list (KeyCollection.size <$> l.*2)
  = length (l ≫= fun item =>
              (fun p => (item.1, p.1, p.2)) <$> KeyCollection.as_tuples item.2).
Proof.
  induction 1 as [|item l Hitem _ IH]; csimpl; [done|].
  by rewrite length_app, length_fmap, <- IH, Hitem.
Qed.

Lemma init_consistent (M : gmap Z (gset string)) :
  KeyCollection.size (KeyCollection.init M)
  = length (KeyCollection.as_tuples (KeyCollection.init M)).
Proof. rewrite as_tuples_bind, length_bind_tuples. apply size_values. Qed.

(** X16: a UseCaseKeyCollection is built from mappings and from
    collections whose [size] is the number of their keys. Then its [size]
    is the number of tuples of [as_tuples]; no tuple occurs twice, and the
    tuples are the keys of the collection of each use case, with the use
    case in front. *)
Theorem use_case_collection_size_as_tuples args :
  (forall use_case keys,
      args !! use_case = Some (UseCaseKeyCollection.Built keys) ->
      KeyCollection.size keys = length (KeyCollection.as_tuples keys)) ->
  let self := UseCaseKeyCollection.init args in
  UseCaseKeyCollection.size self
  = length (UseCaseKeyCollection.as_tuples self)
  /\ NoDup (UseCaseKeyCollection.as_tuples self)
  /\ (forall use_case o s,
        (use_case, o, s) ∈ UseCaseKeyCollection.as_tuples self
        <-> exists keys,
              UseCaseKeyCollection.mapping self !! use_case = Some keys
              /\ (o, s) ∈ KeyCollection.as_tuples keys).
Proof.
  intros Hargs. cbv zeta. split_and!.
  - unfold UseCaseKeyCollection.init, UseCaseKeyCollection._size,
      UseCaseKeyCollection.as_tuples. cbn [UseCaseKeyCollection.size
      UseCaseKeyCollection.mapping].
    apply use_case_size_length. apply Forall_forall.
    intros [uc keys] Hin%elem_of_map_to_list. simpl.
    apply lookup_fmap_Some in Hin as ([m|keys'] & <- & Harg).
    + apply init_consistent.
    + by apply (Hargs uc).
  - apply NoDup_use_case_tuples.
  - intros uc o s. apply elem_of_use_case_tuples.
Qed.

Lemma use_case_strings_render self :
  UseCaseKeyCollection.as_strings self
  = (fun t => use_case_key_string t.1.1 (key_string t.1.2 t.2))
      <$> UseCaseKeyCollection.as_tuples self.
Proof.
  unfold UseCaseKeyCollection.as_strings, UseCaseKeyCollection.as_tuples.
  induction (map_to_list (UseCaseKeyCollection.mapping self))
    as [|[uc keys] l IH]; csimpl; [done|].
  rewrite fmap_app, IH. f_equal.
  rewrite as_strings_render, <- !list_fmap_compose. done.
Qed.

(** X17: [as_strings] of a UseCaseKeyCollection is [as_tuples] with each
    tuple written ["{use_case_id}:{org_id}:{string}"], in the same order;
    when no use-case id holds a colon, no string occurs twice. *)
Theorem use_case_as_strings_distinct self :
  UseCaseKeyCollection.as_strings self
  = (fun t => use_case_key_string t.1.1 (key_string t.1.2 t.2))
      <$> UseCaseKeyCollection.as_tuples self
  /\ (map_Forall (fun use_case _ => colon_free use_case = true)
                 (UseCaseKeyCollection.mapping self) ->
      NoDup (UseCaseKeyCollection.as_strings self)).
Proof.
  split; [apply use_case_strings_render|].
  intros Hfree. rewrite use_case_strings_render.
  apply NoDup_fmap_2_strong; [|apply NoDup_use_case_tuples].
  intros [[uc1 o1] s1] [[uc2 o2] s2]
    (k1 & Hk1 & _)%elem_of_use_case_tuples
    (k2 & Hk2 & _)%elem_of_use_case_tuples E. simpl in E.
  apply use_case_key_string_inj in E as [-> [-> ->]%key_string_inj];
    [done|by apply (Hfree _ _ Hk1)|by apply (Hfree _ _ Hk2)].
Qed.
End use_case_key_collection.

(** ** Reading a UseCaseKeyResults *)

Section use_case_reading.
Implicit Types (self : UseCaseKeyResults.t).

Lemma use_case_mapped_lookup self (use_case : string)
    (m : gmap Z (gmap string (option Z))) :
  UseCaseKeyResults.get_mapped_results self !! use_case = Some m
  <-> exists key_results,
        UseCaseKeyResults.results self !! use_case = Some key_results
        /\ m = KeyResults.get_mapped_results key_results /\ m <> ∅.
Proof.
  unfold UseCaseKeyResults.get_mapped_results. rewrite lookup_omap_Some.
  split.
  - intros (kr & Hm & Hkr). exists kr. simpl in Hm.
    destruct (decide (KeyResults.get_mapped_results kr = ∅)); [done|].
    injection Hm as <-. done.
  - intros (kr & Hkr & -> & Hne). exists kr. simpl.
    by rewrite decide_False.
Qed.

(** X18: [get_mapped_results] of a UseCaseKeyResults has no use case with
    an empty mapping and no org with an empty sub-mapping, and it loses no
    entry: under every use case, org and string it holds what the results
    of that use case hold. *)
Theorem use_case_mapped_results_entries self (use_case : string)
    (o : Z) (s : string) :
  (forall m, UseCaseKeyResults.get_mapped_results self !! use_case = Some m ->
             m <> ∅ /\ forall o' strings, m !! o' = Some strings -> strings <> ∅)
  /\ (UseCaseKeyResults.get_mapped_results self !! use_case
        ≫= fun m => entry m o s)
     = (UseCaseKeyResults.results self !! use_case
          ≫= fun key_results => entry (KeyResults.results key_results) o s).
Proof.
  split.
  - intros m (kr & _ & -> & Hne)%use_case_mapped_lookup. split; [done|].
    intros o' strings [_ Hs]%get_mapped_results_lookup. done.
  - destruct (UseCaseKeyResults.get_mapped_results self !! use_case)
      as [m|] eqn:E.
    + apply use_case_mapped_lookup in E as (kr & -> & -> & _). simpl.
      unfold entry.
      destruct (KeyResults.get_mapped_results kr !! o) as [d|] eqn:Ed.
      * apply get_mapped_results_lookup in Ed as [-> _]. done.
      * destruct (KeyResults.results kr !! o) as [d|] eqn:Ed'; [|done].
        simpl. destruct (decide (d = ∅)) as [->|Hd]; [by rewrite lookup_empty|].
        assert (KeyResults.get_mapped_results kr !! o = Some d) as Hd'
          by (by apply get_mapped_results_lookup).
        congruence.
    + destruct (UseCaseKeyResults.results self !! use_case) as [kr|] eqn:Ekr;
        [|done].
      simpl. destruct (decide (KeyResults.get_mapped_results kr = ∅)) as [He|Hne].
      * unfold entry.
        destruct (KeyResults.results kr !! o) as [d|] eqn:Ed; [|done].
        simpl. destruct (decide (d = ∅)) as [->|Hd]; [by rewrite lookup_empty|].
        assert (KeyResults.get_mapped_results kr !! o = Some d) as Hd'
          by (by apply get_mapped_results_lookup).
        rewrite He, lookup_empty in Hd'. done.
      * assert (UseCaseKeyResults.get_mapped_results self !! use_case
                = Some (KeyResults.get_mapped_results kr)) as Hm
          by (apply use_case_mapped_lookup; eauto).
        congruence.
Qed.

(** X19: [get_fetch_metadata] of a UseCaseKeyResults holds the metadata of
    the use cases that have any, as stored, and no use case with an empty
    metadata mapping; the metadata of every key is kept. *)
Theorem use_case_fetch_metadata_entries self (use_case : string)
    (o : Z) (s : string) :
  (forall m, UseCaseKeyResults.get_fetch_metadata self !! use_case = Some m
             <-> exists key_results,
                   UseCaseKeyResults.results self !! use_case = Some key_results
                   /\ m = KeyResults.meta key_results /\ m <> ∅)
  /\ (UseCaseKeyResults.get_fetch_metadata self !! use_case
        ≫= fun m => entry m o s)
     = (UseCaseKeyResults.results self !! use_case
          ≫= fun key_results => entry (KeyResults.meta key_results) o s).
Proof.
  assert (forall m, UseCaseKeyResults.get_fetch_metadata self !! use_case = Some m
             <-> exists key_results,
                   UseCaseKeyResults.results self !! use_case = Some key_results
                   /\ m = KeyResults.meta key_results /\ m <> ∅) as Hlookup.
  { intros m. unfold UseCaseKeyResults.get_fetch_metadata,
      KeyResults.get_fetch_metadata. rewrite lookup_omap_Some. split.
    - intros (kr & Hm & Hkr). exists kr. simpl in Hm.
      destruct (decide (KeyResults.meta kr = ∅)); [done|].
      injection Hm as <-. done.
    - intros (kr & Hkr & -> & Hne). exists kr. by rewrite decide_False. }
  split; [done|].
  case_eq (UseCaseKeyResults.get_fetch_metadata self !! use_case);
    [intros m E|intros E].
  - apply Hlookup in E as (kr & -> & -> & _). done.
  - destruct (UseCaseKeyResults.results self !! use_case) as [kr|] eqn:Ekr;
      [|done].
    simpl. destruct (decide (KeyResults.meta kr = ∅)) as [He|Hne].
    + unfold entry. by rewrite He, lookup_empty.
    + assert (UseCaseKeyResults.get_fetch_metadata self !! use_case
              = Some (KeyResults.meta kr)) as Hm by (apply Hlookup; eauto).
      congruence.
Qed.

End use_case_reading.

(** ** Loops that may raise, and groupby *)

Section for_each.
Context {A S : Type}.
Implicit Types (body : S -> A -> result S) (items : list A).

Lemma for_each_fold body (r : result S) items :
  foldl (fun acc item => st ← acc; body st item) r items
  = r ≫= fun st => for_each body st items.
Proof.
  unfold for_each. revert r. induction items as [|x items IH]; intros r.
  - by destruct r.
  - cbn [foldl]. rewrite IH. destruct r as [st|e]; simpl; [|done].
    by rewrite IH.
Qed.

Lemma for_each_cons body (start : S) (x : A) items :
  for_each body start (x :: items)
  = body start x ≫= fun st => for_each body st items.
Proof. unfold for_each at 1. cbn [foldl]. apply for_each_fold. Qed.

Lemma for_each_app body (start : S) items1 items2 :
  for_each body start (items1 ++ items2)
  = for_each body start items1 ≫= fun st => for_each body st items2.
Proof. unfold for_each at 1. rewrite foldl_app. apply for_each_fold. Qed.

Lemma for_each_nil body (start : S) : for_each body start [] = Return start.
Proof. done. Qed.
End for_each.

Section groupby.
Context {A K : Type} `{EqDecision K}.
Implicit Types (key : A -> K) (items : list A).

Lemma groupby_concat key items :
  mjoin (groupby key items).*2 = items.
Proof.
  induction items as [|x items IH]; [done|]. cbn [groupby].
  destruct (groupby key items) as [|[k g] groups]; simpl in *.
  - by rewrite <- IH.
  - case_decide; simpl; by rewrite <- IH.
Qed.

Lemma groupby_groups key items :
  Forall (fun group => group.2 <> [] /\ Forall (fun x => key x = group.1) group.2)
         (groupby key items).
Proof.
  induction items as [|x items IH]; [constructor|]. cbn [groupby].
  destruct (groupby key items) as [|[k g] groups].
  - repeat constructor; done.
  - apply Forall_cons in IH as [[Hne Hg] IH]. case_decide.
    + constructor; [|done]. simpl in *. split; [done|]. by constructor.
    + repeat constructor; done.
Qed.
End groupby.

(** ** UseCaseKeyResults.add_use_case_key_results *)

Section add_use_case_key_results.
Implicit Types (self : UseCaseKeyResults.t).

Lemma results_getitem_insert (auto : bool) (results : gmap string KeyResults.t)
    (use_case : string) key_results results1 (v : KeyResults.t) :
  UseCaseKeyResults.results_getitem auto results use_case
  = Return (key_results, results1) ->
  key_results = default KeyResults.init (results !! use_case)
  /\ <[use_case := v]> results1 = <[use_case := v]> results.
Proof.
  unfold UseCaseKeyResults.results_getitem.
  destruct (results !! use_case) as [kr|] eqn:E.
  - by intros [= <- <-].
  - destruct auto; [|done]. intros [= <- <-]. split; [done|].
    apply insert_insert_eq.
Qed.

Lemma results_getitem_dom (auto : bool) (results : gmap string KeyResults.t)
    (use_case : string) key_results results1 :
  UseCaseKeyResults.results_getitem auto results use_case
  = Return (key_results, results1) ->
  dom results ⊆ dom results1.
Proof.
  unfold UseCaseKeyResults.results_getitem.
  destruct (results !! use_case) as [kr|].
  - by intros [= _ <-].
  - destruct auto; [|done]. intros [= _ <-]. rewrite dom_insert_L. set_solver.
Qed.

Lemma results_getitem_total (results : gmap string KeyResults.t)
    (use_case : string) :
  exists results1,
    UseCaseKeyResults.results_getitem true results use_case
    = Return (default KeyResults.init (results !! use_case), results1).
Proof.
  unfold UseCaseKeyResults.results_getitem.
  destruct (results !! use_case); eauto.
Qed.

Lemma results_getitem_present (auto : bool) (results : gmap string KeyResults.t)
    (use_case : string) :
  use_case ∈ dom results ->
  UseCaseKeyResults.results_getitem auto results use_case
  = Return (default KeyResults.init (results !! use_case), results).
Proof.
  intros [kr Hkr]%elem_of_dom. unfold UseCaseKeyResults.results_getitem.
  by rewrite Hkr.
Qed.

Lemma add_use_case_key_result_run (auto : bool) self (x : UseCaseKeyResult.t)
    fetch_type fetch_type_ext :
  UseCaseKeyResults.add_use_case_key_result auto self x fetch_type fetch_type_ext
  = '(key_results, results1) ←
      UseCaseKeyResults.results_getitem auto (UseCaseKeyResults.results self)
        (UseCaseKeyResult.use_case_id x);
    Return (UseCaseKeyResults.mk
              (<[UseCaseKeyResult.use_case_id x :=
                   KeyResults.add_key_result key_results
                     (UseCaseKeyResults.to_key_result x)
                     fetch_type fetch_type_ext]> results1)).
Proof. done. Qed.

Lemma add_same_use_case (auto : bool) self (use_case : string)
    (key_results : KeyResults.t) (group : list UseCaseKeyResult.t)
    fetch_type fetch_type_ext :
  UseCaseKeyResults.results self !! use_case = Some key_results ->
  Forall (fun x => UseCaseKeyResult.use_case_id x = use_case) group ->
  for_each (fun self x =>
              UseCaseKeyResults.add_use_case_key_result auto self x
                fetch_type fetch_type_ext) self group
  = Return (UseCaseKeyResults.mk
              (<[use_case :=
                   KeyResults.add_key_results key_results
                     (UseCaseKeyResults.to_key_result <$> group)
                     fetch_type fetch_type_ext]>
                 (UseCaseKeyResults.results self))).
Proof.
  intros Hkr Hall. revert self key_results Hkr.
  induction Hall as [|x group Hx Hall IH]; intros self kr Hkr.
  - rewrite for_each_nil. destruct self as [r]. simpl in *.
    by rewrite insert_id.
  - rewrite for_each_cons, add_use_case_key_result_run.
    rewrite Hx. unfold UseCaseKeyResults.results_getitem. rewrite Hkr.
    cbn [mbind result_bind]. erewrite IH by apply lookup_insert_eq.
    cbn [UseCaseKeyResults.results]. by rewrite insert_insert_eq.
Qed.

Lemma add_group_sequential (auto : bool) self (use_case : string)
    (group : list UseCaseKeyResult.t) fetch_type fetch_type_ext :
  group <> [] ->
  Forall (fun x => UseCaseKeyResult.use_case_id x = use_case) group ->
  for_each (fun self x =>
              UseCaseKeyResults.add_use_case_key_result auto self x
                fetch_type fetch_type_ext) self group
  = '(key_results, results1) ←
      UseCaseKeyResults.results_getitem auto
        (UseCaseKeyResults.results self) use_case;
    Return (UseCaseKeyResults.mk
              (<[use_case :=
                   KeyResults.add_key_results key_results
                     (UseCaseKeyResults.to_key_result <$> group)
                     fetch_type fetch_type_ext]> results1)).
Proof.
  intros Hne Hall. destruct group as [|x group]; [done|].
  apply Forall_cons in Hall as [Hx Hall].
  rewrite for_each_cons, add_use_case_key_result_run. rewrite Hx.
  destruct (UseCaseKeyResults.results_getitem auto
              (UseCaseKeyResults.results self) use_case)
    as [[kr r1]|e] eqn:Hget; [|done].
  cbn [mbind result_bind].
  erewrite (add_same_use_case auto _ use_case) by
    (first [apply lookup_insert_eq | done]).
  cbn [UseCaseKeyResults.results]. by rewrite insert_insert_eq.
Qed.

Lemma add_groups_sequential (auto : bool) self
    (groups : list (string * list UseCaseKeyResult.t))
    fetch_type fetch_type_ext :
  Forall (fun group =>
            group.2 <> []
            /\ Forall (fun x => UseCaseKeyResult.use_case_id x = group.1) group.2)
         groups ->
  for_each
    (fun self group =>
       '(key_results, results1) ←
         UseCaseKeyResults.results_getitem auto
           (UseCaseKeyResults.results self) group.1;
       Return (UseCaseKeyResults.mk
                 (<[group.1 :=
                      KeyResults.add_key_results key_results
                        (UseCaseKeyResults.to_key_result <$> group.2)
                        fetch_type fetch_type_ext]> results1)))
    self groups
  = for_each (fun self x =>
                UseCaseKeyResults.add_use_case_key_result auto self x
                  fetch_type fetch_type_ext) self (mjoin groups.*2).
Proof.
  intros Hgroups. revert self.
  induction Hgroups as [|[k g] groups [Hne Hg] _ IH]; intros self; [done|].
  rewrite for_each_cons. simpl in Hne, Hg.
  cbn [fst snd fmap list_fmap mjoin list_join].
  rewrite for_each_app, (add_group_sequential auto self k g) by done.
  destruct (UseCaseKeyResults.results_getitem auto
              (UseCaseKeyResults.results self) k) as [[kr r1]|e]; [|done].
  cbn [mbind result_bind]. apply IH.
Qed.

Lemma add_one_by_one_returns (auto : bool) self
    (use_case_key_results : list UseCaseKeyResult.t)
    fetch_type fetch_type_ext :
  (auto = true
   \/ Forall (fun x => UseCaseKeyResult.use_case_id x
                       ∈ dom (UseCaseKeyResults.results self))
             use_case_key_results) ->
  exists self',
    for_each (fun self x =>
                UseCaseKeyResults.add_use_case_key_result auto self x
                  fetch_type fetch_type_ext) self use_case_key_results
    = Return self'.
Proof.
  revert self. induction use_case_key_results as [|x l IH]; intros self Hauto.
  - by exists self.
  - rewrite for_each_cons, add_use_case_key_result_run.
    assert (exists results1,
               UseCaseKeyResults.results_getitem auto
                 (UseCaseKeyResults.results self)
                 (UseCaseKeyResult.use_case_id x)
               = Return (default KeyResults.init
                           (UseCaseKeyResults.results self
                              !! UseCaseKeyResult.use_case_id x), results1))
      as [results1 Hget].
    { destruct Hauto as [->|Hdom]; [apply results_getitem_total|].
      apply Forall_cons in Hdom as [Hk _]. eexists.
      by apply results_getitem_present. }
    rewrite Hget. cbn [mbind result_bind].
    apply IH. destruct Hauto as [->|Hdom]; [by left|right].
    apply Forall_cons in Hdom as [_ Hdom].
    eapply Forall_impl; [exact Hdom|]. intros y Hy.
    cbn [UseCaseKeyResults.results]. rewrite dom_insert_L.
    apply elem_of_union_r. by apply (results_getitem_dom _ _ _ _ _ Hget).
Qed.

(** X21: adding a sequence of use-case key results at once is adding
    them one by one, in order, whether or not results of one use case
    stand next to each other in the sequence, and whatever the receiver:
    both return the same object or both raise. On an object made by the
    constructor, and on an object returned by [merge] that has every use
    case of the sequence, they return. *)
Theorem add_use_case_key_results_sequential (auto : bool) self
    (use_case_key_results : list UseCaseKeyResult.t)
    fetch_type fetch_type_ext :
  UseCaseKeyResults.add_use_case_key_results auto self use_case_key_results
    fetch_type fetch_type_ext
  = for_each (fun self x =>
                UseCaseKeyResults.add_use_case_key_result auto self x
                  fetch_type fetch_type_ext) self use_case_key_results
  /\ ((auto = true
       \/ Forall (fun x => UseCaseKeyResult.use_case_id x
                           ∈ dom (UseCaseKeyResults.results self))
                 use_case_key_results) ->
      exists self',
        UseCaseKeyResults.add_use_case_key_results auto self
          use_case_key_results fetch_type fetch_type_ext
        = Return self').
Proof.
  assert (UseCaseKeyResults.add_use_case_key_results auto self
            use_case_key_results fetch_type fetch_type_ext
          = for_each (fun self x =>
                        UseCaseKeyResults.add_use_case_key_result auto self x
                          fetch_type fetch_type_ext) self use_case_key_results)
    as Heq.
  { unfold UseCaseKeyResults.add_use_case_key_results.
    rewrite (add_groups_sequential auto) by apply groupby_groups.
    by rewrite groupby_concat. }
  split; [exact Heq|]. intros Hauto. rewrite Heq.
  by apply add_one_by_one_returns.
Qed.
End add_use_case_key_results.

Section add_use_case_key_results_missing.
Implicit Types (self : UseCaseKeyResults.t).

Lemma add_groups_missing self
    (groups : list (string * list UseCaseKeyResult.t))
    fetch_type fetch_type_ext :
  Exists (fun group => group.1 ∉ dom (UseCaseKeyResults.results self)) groups ->
  for_each
    (fun self group =>
       '(key_results, results1) ←
         UseCaseKeyResults.results_getitem false
           (UseCaseKeyResults.results self) group.1;
       Return (UseCaseKeyResults.mk
                 (<[group.1 :=
                      KeyResults.add_key_results key_results
                        (UseCaseKeyResults.to_key_result <$> group.2)
                        fetch_type fetch_type_ext]> results1)))
    self groups
  = Raise KeyError.
Proof.
  revert self. induction groups as [|[k g] groups IH]; intros self Hex.
  - by apply Exists_nil in Hex.
  - rewrite for_each_cons. simpl.
    destruct (decide (k ∈ dom (UseCaseKeyResults.results self))) as [Hk|Hk].
    + rewrite results_getitem_present by done. simpl. apply IH.
      apply Exists_cons in Hex as [Hex|Hex]; [done|].
      eapply Exists_impl; [exact Hex|]. intros [k' g'] Hk'. simpl in *.
      rewrite dom_insert_L. set_solver.
    + unfold UseCaseKeyResults.results_getitem.
      apply not_elem_of_dom in Hk. by rewrite Hk.
Qed.

(** X22: on an object returned by [merge], adding a sequence that names a
    use case the object does not have raises a KeyError. *)
Theorem add_use_case_key_results_key_error self
    (use_case_key_results : list UseCaseKeyResult.t)
    fetch_type fetch_type_ext :
  Exists (fun x => UseCaseKeyResult.use_case_id x
                   ∉ dom (UseCaseKeyResults.results self))
         use_case_key_results ->
  UseCaseKeyResults.add_use_case_key_results false self use_case_key_results
    fetch_type fetch_type_ext
  = Raise KeyError.
Proof.
  intros Hex. unfold UseCaseKeyResults.add_use_case_key_results.
  apply add_groups_missing.
  pose proof (groupby_groups UseCaseKeyResult.use_case_id
                use_case_key_results) as Hgroups.
  pose proof (groupby_concat UseCaseKeyResult.use_case_id
                use_case_key_results) as Hconcat.
  rewrite <- Hconcat in Hex. revert Hgroups Hex.
  generalize (groupby UseCaseKeyResult.use_case_id use_case_key_results).
  intros groups Hgroups. induction Hgroups as [|[k g] groups [Hne Hg] _ IH];
    intros Hex.
  - by apply Exists_nil in Hex.
  - cbn [fst snd fmap list_fmap mjoin list_join] in Hex.
    apply Exists_app in Hex as [Hex|Hex].
    + apply Exists_cons_hd. simpl in *.
      apply Exists_exists in Hex as (x & Hx & Hdom).
      rewrite Forall_forall in Hg. by rewrite <- (Hg x Hx).
    + apply Exists_cons_tl. by apply IH.
Qed.
End add_use_case_key_results_missing.

(** ** UseCaseKeyResults.get_unmapped_use_case_keys *)

Section get_unmapped_use_case_keys.
Implicit Types (self : UseCaseKeyResults.t).
Implicit Types (r : gmap string KeyResults.t).
Implicit Types (acc : gmap string KeyCollection.t).
Implicit Types (l : list (string * KeyCollection.t)).

Lemma unmapped_use_case_step_closed (auto : bool) r acc
    (item : string * KeyCollection.t) :
  auto = true \/ item.1 ∈ dom r ->
  UseCaseKeyResults.unmapped_use_case_step auto (r, acc) item
  = let unmapped :=
      KeyResults.get_unmapped_keys (default KeyResults.init (r !! item.1))
                                   item.2 in
    Return (<[item.1 := unmapped.2]> r,
            if bool_decide (0 < KeyCollection.size unmapped.1)%nat
            then <[item.1 := unmapped.1]> acc else acc).
Proof.
  intros Hauto. unfold UseCaseKeyResults.unmapped_use_case_step. cbn [fst snd].
  assert (exists results1,
             UseCaseKeyResults.results_getitem auto r item.1
             = Return (default KeyResults.init (r !! item.1), results1))
    as [results1 Hget].
  { destruct Hauto as [->|Hdom]; [apply results_getitem_total|].
    eexists. by apply results_getitem_present. }
  rewrite Hget. cbv [mbind result_bind]. cbv beta iota zeta.
  by apply results_getitem_insert with (v :=
    (KeyResults.get_unmapped_keys (default KeyResults.init (r !! item.1))
                                  item.2).2) in Hget as [_ ->].
Qed.

Lemma unmapped_use_case_loop (auto : bool) l r acc :
  NoDup l.*1 ->
  auto = true \/ Forall (fun item => item.1 ∈ dom r) l ->
  exists r' acc',
    for_each (UseCaseKeyResults.unmapped_use_case_step auto) (r, acc) l
    = Return (r', acc')
    /\ (forall use_case,
          r' !! use_case
          = match (list_to_map l : gmap string KeyCollection.t) !! use_case with
            | Some keys =>
                Some (KeyResults.get_unmapped_keys
                        (default KeyResults.init (r !! use_case)) keys).2
            | None => r !! use_case
            end)
    /\ (forall use_case,
          acc' !! use_case
          = match (list_to_map l : gmap string KeyCollection.t) !! use_case with
            | Some keys =>
                let left :=
                  (KeyResults.get_unmapped_keys
                     (default KeyResults.init (r !! use_case)) keys).1 in
                if bool_decide (0 < KeyCollection.size left)%nat
                then Some left else acc !! use_case
            | None => acc !! use_case
            end).
Proof.
  revert r acc. induction l as [|[k keys] l IH]; intros r acc Hnd Hauto.
  - exists r, acc. split; [done|].
    split; intros uc; simpl; by rewrite lookup_empty.
  - apply NoDup_cons in Hnd as [Hk Hnd]. rewrite for_each_cons.
    rewrite unmapped_use_case_step_closed; cycle 1.
    { destruct Hauto as [->|Hdom]; [by left|right].
      by apply Forall_cons in Hdom as [? _]. }
    cbn [fst snd mbind result_bind].
    edestruct (IH (<[k := (KeyResults.get_unmapped_keys
                             (default KeyResults.init (r !! k)) keys).2]> r))
      as (r' & acc' & Hrun & Hr & Hacc); [exact Hnd| |].
    { destruct Hauto as [->|Hdom]; [by left|right].
      apply Forall_cons in Hdom as [_ Hdom].
      eapply Forall_impl; [exact Hdom|]. intros [k' keys'] Hk'. simpl in *.
      rewrite dom_insert_L. set_solver. }
    exists r', acc'. split; [exact Hrun|]. split; intros uc.
    + rewrite Hr, list_to_map_cons. destruct (decide (k = uc)) as [->|Hne].
      * rewrite (not_elem_of_list_to_map_1 _ _ Hk), !lookup_insert_eq. done.
      * by rewrite !(lookup_insert_ne _ k uc).
    + rewrite Hacc, list_to_map_cons. destruct (decide (k = uc)) as [->|Hne].
      * rewrite (not_elem_of_list_to_map_1 _ _ Hk), lookup_insert_eq. cbv zeta.
        case_bool_decide; [by rewrite lookup_insert_eq|done].
      * rewrite !(lookup_insert_ne _ k uc) by done.
        assert (forall (b : bool) v,
                   (if b then <[k := v]> acc else acc) !! uc = acc !! uc) as Hif
          by (intros [] v; by rewrite ?lookup_insert_ne).
        by rewrite Hif.
Qed.
End get_unmapped_use_case_keys.

Section unmapped_use_case_result.
Implicit Types (self : UseCaseKeyResults.t).
Implicit Types (coll : UseCaseKeyCollection.t).

Lemma init_built_mapping (acc : gmap string KeyCollection.t) :
  UseCaseKeyCollection.mapping
    (UseCaseKeyCollection.init (UseCaseKeyCollection.Built <$> acc))
  = acc.
Proof.
  unfold UseCaseKeyCollection.init. cbn [UseCaseKeyCollection.mapping].
  rewrite <- map_fmap_compose. apply map_fmap_id.
Qed.

Lemma init_built (acc : gmap string KeyCollection.t) :
  UseCaseKeyCollection.init (UseCaseKeyCollection.Built <$> acc)
  = UseCaseKeyCollection.mk acc (UseCaseKeyCollection._size acc).
Proof.
  pose proof (init_built_mapping acc) as E.
  unfold UseCaseKeyCollection.init in *.
  cbn [UseCaseKeyCollection.mapping] in E. by rewrite E.
Qed.

Lemma unmapped_size_pos (kr : KeyResults.t) (keys : KeyCollection.t) :
  (0 < KeyCollection.size (KeyResults.get_unmapped_keys kr keys).1)%nat
  <-> exists o s,
        (o, s) ∈ KeyCollection.as_tuples (KeyResults.get_unmapped_keys kr keys).1.
Proof.
  assert (KeyCollection.size (KeyResults.get_unmapped_keys kr keys).1
          = length (KeyCollection.as_tuples
                      (KeyResults.get_unmapped_keys kr keys).1)) as ->.
  { rewrite unmapped_is_init at 1 2.
    rewrite as_tuples_bind, length_bind_tuples. apply size_values. }
  destruct (KeyCollection.as_tuples _) as [|[o s] l]; simpl.
  - split; [lia|]. intros (o & s & Hin). by apply elem_of_nil in Hin.
  - split; [|lia]. intros _. exists o, s. apply list_elem_of_here.
Qed.

(** X23: on an object made by the constructor, and on any object that has
    every use case of the collection, [get_unmapped_use_case_keys] returns
    the keys [(use_case_id, org_id, string)] of the collection whose id in
    the results of their use case is false, and no others; no use case is
    returned with a collection of size zero, and the [size] returned is the
    number of these keys. The receiver afterwards holds, for every use case
    of the collection, what [get_unmapped_keys] left of its KeyResults, an
    empty one being made for a use case it did not have. *)
Theorem get_unmapped_use_case_keys_complement (auto : bool) self coll :
  (auto = true
   \/ forall use_case,
        use_case ∈ dom (UseCaseKeyCollection.mapping coll) ->
        use_case ∈ dom (UseCaseKeyResults.results self)) ->
  exists left self',
    UseCaseKeyResults.get_unmapped_use_case_keys auto self coll
    = Return (left, self')
    /\ (forall use_case o s,
          (use_case, o, s) ∈ UseCaseKeyCollection.as_tuples left
          <-> (use_case, o, s) ∈ UseCaseKeyCollection.as_tuples coll
              /\ truthy (recorded_id
                           (KeyResults.results
                              (default KeyResults.init
                                 (UseCaseKeyResults.results self !! use_case)))
                           o s) = false)
    /\ (forall use_case keys,
          UseCaseKeyCollection.mapping left !! use_case = Some keys ->
          (0 < KeyCollection.size keys)%nat)
    /\ UseCaseKeyCollection.size left
       = length (UseCaseKeyCollection.as_tuples left)
    /\ (forall use_case,
          UseCaseKeyResults.results self' !! use_case
          = match UseCaseKeyCollection.mapping coll !! use_case with
            | Some keys =>
                Some (KeyResults.get_unmapped_keys
                        (default KeyResults.init
                           (UseCaseKeyResults.results self !! use_case))
                        keys).2
            | None => UseCaseKeyResults.results self !! use_case
            end).
Proof.
  intros Hauto. unfold UseCaseKeyResults.get_unmapped_use_case_keys.
  destruct (unmapped_use_case_loop auto
              (map_to_list (UseCaseKeyCollection.mapping coll))
              (UseCaseKeyResults.results self) ∅)
    as (r' & acc' & -> & Hr & Hacc).
  { apply NoDup_fst_map_to_list. }
  { destruct Hauto as [->|Hdom]; [by left|right].
    apply Forall_forall. intros [uc keys] Hin%elem_of_map_to_list.
    apply Hdom. apply elem_of_dom. eauto. }
  rewrite list_to_map_to_list in Hr, Hacc.
  assert (forall uc keys',
             acc' !! uc = Some keys'
             <-> exists keys,
                   UseCaseKeyCollection.mapping coll !! uc = Some keys
                   /\ keys' = (KeyResults.get_unmapped_keys
                                 (default KeyResults.init
                                    (UseCaseKeyResults.results self !! uc))
                                 keys).1
                   /\ (0 < KeyCollection.size keys')%nat) as Hacc'.
  { intros uc keys'. rewrite Hacc.
    destruct (UseCaseKeyCollection.mapping coll !! uc) as [keys|]; cbv zeta.
    - case_bool_decide as Hpos.
      + split.
        * intros [= <-]. eauto.
        * by intros (keys0 & [= <-] & -> & _).
      + rewrite lookup_empty. split; [done|].
        intros (keys0 & [= <-] & -> & Hpos'). done.
    - rewrite lookup_empty. split; [done|]. by intros (? & [=] & _). }
  eexists _, _. split; [done|]. split_and!.
  - intros uc o s. rewrite !elem_of_use_case_tuples, init_built_mapping.
    split.
    + intros (keys' & (keys & Hkeys & -> & _)%Hacc' & Hin).
      apply unmapped_keys_elem_of in Hin as [Hin Hf]. eauto.
    + intros [(keys & Hkeys & Hin) Hf].
      assert ((o, s) ∈ KeyCollection.as_tuples
                         (KeyResults.get_unmapped_keys
                            (default KeyResults.init
                               (UseCaseKeyResults.results self !! uc))
                            keys).1) as Hleft
        by (by apply unmapped_keys_elem_of).
      eexists. split; [|exact Hleft]. apply Hacc'. exists keys.
      split_and!; [done..|]. apply unmapped_size_pos. eauto.
  - intros uc keys'. rewrite init_built_mapping.
    by intros (keys & _ & _ & Hpos)%Hacc'.
  - rewrite init_built.
    unfold UseCaseKeyCollection._size, UseCaseKeyCollection.as_tuples.
    cbn [UseCaseKeyCollection.size UseCaseKeyCollection.mapping].
    apply use_case_size_length, Forall_forall.
    intros [uc keys'] (keys & _ & -> & _)%elem_of_map_to_list%Hacc'.
    cbn [snd]. rewrite unmapped_is_init at 1 2.
    rewrite as_tuples_bind, length_bind_tuples. apply size_values.
  - intros uc. cbn [UseCaseKeyResults.results]. apply Hr.
Qed.

Lemma unmapped_use_case_loop_missing
    (l : list (string * KeyCollection.t)) (r : gmap string KeyResults.t)
    (acc : gmap string KeyCollection.t) :
  Exists (fun item => item.1 ∉ dom r) l ->
  for_each (UseCaseKeyResults.unmapped_use_case_step false) (r, acc) l
  = Raise KeyError.
Proof.
  revert r acc. induction l as [|[k keys] l IH]; intros r acc Hex.
  - by apply Exists_nil in Hex.
  - rewrite for_each_cons.
    destruct (decide (k ∈ dom r)) as [Hk|Hk].
    + rewrite unmapped_use_case_step_closed by (by right).
      cbn [mbind result_bind]. cbv zeta. apply IH.
      apply Exists_cons in Hex as [Hex|Hex]; [done|].
      eapply Exists_impl; [exact Hex|]. intros [k' keys'] Hk'. simpl in *.
      rewrite dom_insert_L. set_solver.
    + unfold UseCaseKeyResults.unmapped_use_case_step,
        UseCaseKeyResults.results_getitem. simpl.
      apply not_elem_of_dom in Hk. by rewrite Hk.
Qed.

(** X24: on an object returned by [merge],
    [get_unmapped_use_case_keys] raises a KeyError when the collection has
    a use case that the object lacks; so it does for a use case that
    neither of the merged objects had. *)
Theorem get_unmapped_use_case_keys_key_error self coll (use_case : string) :
  use_case ∈ dom (UseCaseKeyCollection.mapping coll) ->
  (use_case ∉ dom (UseCaseKeyResults.results self) ->
   UseCaseKeyResults.get_unmapped_use_case_keys false self coll
   = Raise KeyError)
  /\ (forall A B,
        use_case ∉ dom (UseCaseKeyResults.results A) ->
        use_case ∉ dom (UseCaseKeyResults.results B) ->
        UseCaseKeyResults.get_unmapped_use_case_keys
          false (UseCaseKeyResults.merge A B) coll
        = Raise KeyError).
Proof.
  intros [keys Hkeys]%elem_of_dom.
  assert (forall self0,
             use_case ∉ dom (UseCaseKeyResults.results self0) ->
             UseCaseKeyResults.get_unmapped_use_case_keys false self0 coll
             = Raise KeyError) as Hraise.
  { intros self0 Hmiss. unfold UseCaseKeyResults.get_unmapped_use_case_keys.
    rewrite unmapped_use_case_loop_missing; [done|].
    apply Exists_exists. exists (use_case, keys).
    by rewrite elem_of_map_to_list. }
  split; [apply Hraise|]. intros A B HA HB. apply Hraise.
  rewrite elem_of_dom, merge_use_case_lookup.
  rewrite bool_decide_eq_false_2; [by intros [? [=]]|]. set_solver.
Qed.
End unmapped_use_case_result.

(** ** The further properties on the scenarios *)

Section more_scenarios.
Local Open Scope string_scope.

Lemma as_strings_parse_witness :
  exists o s,
    (o, s) ∈ KeyCollection.as_tuples Scenario.keys
    /\ KeyResult.from_string "1:b" 7 = Return (KeyResult.mk o s (Some 7)).
Proof.
  apply (as_strings_parse Scenario.keys "1:b" 7).
  vm_compute.
  repeat first [apply list_elem_of_here | apply list_elem_of_further].
Defined.

Lemma export_parses_back_witness :
  exists o s,
    KeyResult.from_string "1:a" 10 = Return (KeyResult.mk o s (Some 10))
    /\ entry (KeyResults.results Scenario.cache_stage) o s = Some (Some 10).
Proof. apply (export_parses_back Scenario.cache_stage "1:a" 10). reflexivity. Defined.

Lemma export_keeps_zero_witness :
  KeyResults.get_mapped_key_strings_to_ints Scenario.zero_stage !! "1:a"
  = Some 0
  /\ (1, "a") ∈ KeyCollection.as_tuples
                  (KeyResults.get_unmapped_keys Scenario.zero_stage
                                                Scenario.keys).1.
Proof.
  apply (export_keeps_zero Scenario.zero_stage Scenario.keys 1 "a").
  - reflexivity.
  - vm_compute.
    repeat first [apply list_elem_of_here | apply list_elem_of_further].
Defined.

Lemma get_unmapped_keys_after_add_witness :
  (1, "b") ∈ KeyCollection.as_tuples
               (KeyResults.get_unmapped_keys
                  (KeyResults.add_key_result Scenario.cache_stage
                     (KeyResult.mk 1 "b" None) (Some RATE_LIMITED) None)
                  Scenario.keys).1
  <-> (1, "b") ∈ KeyCollection.as_tuples Scenario.keys
      /\ truthy None = false.
Proof.
  apply (proj1 (get_unmapped_keys_after_add Scenario.cache_stage Scenario.keys
                  (KeyResult.mk 1 "b" None) (Some RATE_LIMITED) None 1 "b")).
  reflexivity.
Defined.

Lemma use_case_collection_size_as_tuples_witness :
  UseCaseKeyCollection.size Scenario.use_case_keys
  = length (UseCaseKeyCollection.as_tuples Scenario.use_case_keys).
Proof.
  apply (use_case_collection_size_as_tuples
           {["perf" := UseCaseKeyCollection.Raw {[1 := {["x"]}]};
             "spans" := UseCaseKeyCollection.Built
                          (KeyCollection.init {[1 := {["y"]}]})]}).
  intros use_case keys Hkeys.
  apply lookup_insert_Some in Hkeys as [[_ [=]]|[_ Hkeys]].
  apply lookup_singleton_Some in Hkeys as [_ [= <-]]. reflexivity.
Defined.

Lemma use_case_as_strings_distinct_witness :
  NoDup (UseCaseKeyCollection.as_strings Scenario.use_case_keys).
Proof.
  apply (proj2 (use_case_as_strings_distinct Scenario.use_case_keys)).
  refine (bool_decide_unpack _ _). vm_compute. exact I.
Defined.

Lemma add_use_case_key_results_sequential_witness :
  exists self',
    UseCaseKeyResults.add_use_case_key_results true UseCaseKeyResults.init
      Scenario.mixed_results (Some FIRST_SEEN) None
    = Return self'.
Proof.
  apply (proj2 (add_use_case_key_results_sequential true UseCaseKeyResults.init
                  Scenario.mixed_results (Some FIRST_SEEN) None)).
  left. reflexivity.
Defined.

Example perf_hardcoded_recorded :
  UseCaseKeyResults.add_use_case_key_result true UseCaseKeyResults.init
    (UseCaseKeyResult.mk "perf" 1 "a" (Some 10)) (Some HARDCODED) None
  = Return Scenario.perf_hardcoded.
Proof. vm_compute. reflexivity. Qed.

Lemma add_use_case_key_results_key_error_witness :
  UseCaseKeyResults.add_use_case_key_results false
    (UseCaseKeyResults.merge Scenario.perf_hardcoded Scenario.perf_db)
    Scenario.mixed_results (Some FIRST_SEEN) None
  = Raise KeyError.
Proof.
  apply (add_use_case_key_results_key_error
           (UseCaseKeyResults.merge Scenario.perf_hardcoded Scenario.perf_db)
           Scenario.mixed_results (Some FIRST_SEEN) None).
  apply Exists_cons_tl, Exists_cons_hd.
  apply not_elem_of_dom. reflexivity.
Defined.

Lemma get_unmapped_use_case_keys_complement_witness :
  exists left self',
    UseCaseKeyResults.get_unmapped_use_case_keys true Scenario.perf_hardcoded
      Scenario.use_case_keys
    = Return (left, self')
    /\ UseCaseKeyCollection.size left
       = length (UseCaseKeyCollection.as_tuples left).
Proof.
  destruct (get_unmapped_use_case_keys_complement true Scenario.perf_hardcoded
              Scenario.use_case_keys) as (left & self' & Hrun & _ & _ & Hsize & _).
  - left. reflexivity.
  - exists left, self'. split; [exact Hrun|exact Hsize].
Defined.

Lemma get_unmapped_use_case_keys_key_error_witness :
  UseCaseKeyResults.get_unmapped_use_case_keys false
    (UseCaseKeyResults.merge Scenario.perf_hardcoded Scenario.perf_db)
    Scenario.use_case_keys
  = Raise KeyError.
Proof.
  apply (proj2 (get_unmapped_use_case_keys_key_error
                  (UseCaseKeyResults.merge Scenario.perf_hardcoded
                                           Scenario.perf_db)
                  Scenario.use_case_keys "spans"
                  ltac:(apply elem_of_dom; eexists; reflexivity))
           Scenario.perf_hardcoded Scenario.perf_db);
    apply not_elem_of_dom; reflexivity.
Defined.

Example mixed_results_grouped :
  (groupby UseCaseKeyResult.use_case_id Scenario.mixed_results).*1
  = ["perf"; "spans"; "perf"].
Proof. reflexivity. Qed.

End more_scenarios.

(** ** The algebra of UseCaseKeyResults.merge *)

Section use_case_merge_algebra.
Implicit Types (A B C : UseCaseKeyResults.t).

Lemma key_results_merge_assoc (a b c : KeyResults.t) :
  KeyResults.merge (KeyResults.merge a b) c
  = KeyResults.merge a (KeyResults.merge b c).
Proof.
  rewrite !merge_union_with. simpl. f_equal.
  - apply map_eq. intros o. rewrite !lookup_union_with.
    destruct (KeyResults.results a !! o), (KeyResults.results b !! o),
      (KeyResults.results c !! o); simpl; try done.
    by rewrite (assoc_L (∪)).
  - apply map_eq. intros o. rewrite !lookup_union_with.
    destruct (KeyResults.meta a !! o), (KeyResults.meta b !! o),
      (KeyResults.meta c !! o); simpl; try done.
    by rewrite (assoc_L (∪)).
Qed.

Lemma use_case_merge_lookup A B (use_case : string) :
  UseCaseKeyResults.results (UseCaseKeyResults.merge A B) !! use_case
  = union_with (fun a b => Some (KeyResults.merge a b))
               (UseCaseKeyResults.results A !! use_case)
               (UseCaseKeyResults.results B !! use_case).
Proof.
  rewrite merge_use_case_lookup. unfold UseCaseKeyResults.merge_use_case.
  destruct (UseCaseKeyResults.results A !! use_case) as [a|] eqn:Ha,
    (UseCaseKeyResults.results B !! use_case) as [b|] eqn:Hb; simpl.
  - rewrite !bool_decide_eq_true_2
      by (rewrite ?elem_of_union, !elem_of_dom; eauto).
    simpl. by rewrite (lookup_total_correct _ _ _ Ha),
                      (lookup_total_correct _ _ _ Hb).
  - rewrite (bool_decide_eq_true_2 (_ ∈ _ ∪ _))
      by (rewrite elem_of_union, !elem_of_dom; eauto).
    rewrite (bool_decide_eq_true_2 (_ ∈ dom (UseCaseKeyResults.results A)))
      by (rewrite elem_of_dom; eauto).
    rewrite (bool_decide_eq_false_2 (_ ∈ dom (UseCaseKeyResults.results B)))
      by (rewrite elem_of_dom, Hb; by intros [? [=]]).
    simpl. by rewrite (lookup_total_correct _ _ _ Ha).
  - rewrite (bool_decide_eq_true_2 (_ ∈ _ ∪ _))
      by (rewrite elem_of_union, !elem_of_dom; eauto).
    rewrite (bool_decide_eq_false_2 (_ ∈ dom (UseCaseKeyResults.results A)))
      by (rewrite elem_of_dom, Ha; by intros [? [=]]).
    simpl. by rewrite (lookup_total_correct _ _ _ Hb).
  - rewrite bool_decide_eq_false_2; [done|].
    rewrite elem_of_union, !elem_of_dom, Ha, Hb. by intros [[? [=]]|[? [=]]].
Qed.

Lemma use_case_results_eq A B :
  (forall use_case,
      UseCaseKeyResults.results A !! use_case
      = UseCaseKeyResults.results B !! use_case) ->
  A = B.
Proof. destruct A, B. simpl. intros Heq. f_equal. by apply map_eq. Qed.

(** X25: the merge of UseCaseKeyResults is associative, and merging with
    an object that holds no use case, on either side, gives back an object
    equal to the other one. *)
Theorem use_case_merge_assoc_empty A B C :
  UseCaseKeyResults.merge (UseCaseKeyResults.merge A B) C
  = UseCaseKeyResults.merge A (UseCaseKeyResults.merge B C)
  /\ UseCaseKeyResults.merge A UseCaseKeyResults.init = A
  /\ UseCaseKeyResults.merge UseCaseKeyResults.init A = A.
Proof.
  split_and!; apply use_case_results_eq; intros uc;
    rewrite !use_case_merge_lookup.
  - destruct (UseCaseKeyResults.results A !! uc),
      (UseCaseKeyResults.results B !! uc),
      (UseCaseKeyResults.results C !! uc); simpl; try done.
    by rewrite key_results_merge_assoc.
  - simpl. rewrite lookup_empty.
    by destruct (UseCaseKeyResults.results A !! uc).
  - simpl. rewrite lookup_empty.
    by destruct (UseCaseKeyResults.results A !! uc).
Qed.
End use_case_merge_algebra.
